(** * Static analyses of [app.py]: function catalogue, usage slicing,
      long-function report and call graph.

    The four backend functions of [src/app.py] are embedded over a model of
    the part of CPython's [ast] module they touch ([ast.parse], [ast.walk],
    [ast.iter_child_nodes], the node classes they test with [isinstance])
    and of the part of [networkx.DiGraph] they call ([add_node],
    [add_edge]).  Python exceptions are an explicit [result] type and the
    [try: ... except Exception: return ...] wrappers are [try_except]. *)

From stdpp Require Import base list strings gmap sorting.
From Stdlib Require Import ZArith Lia.

Set Warnings "-clear-no-such-hyp".

Local Open Scope string_scope.
Local Open Scope list_scope.
Local Open Scope Z_scope.

(** ** Exceptions *)

Inductive exn : Type :=
| SyntaxError (msg : string)
| AttributeError (attr : string)
| OtherError (msg : string).

Inductive result (A : Type) : Type :=
| Ok (a : A)
| Raise (e : exn).
Arguments Ok {A} a.
Arguments Raise {A} e.

Definition rbind {A B} (m : result A) (k : A → result B) : result B :=
  match m with
  | Ok a => k a
  | Raise e => Raise e
  end.

#[global] Instance result_ret : MRet result := λ A a, Ok a.
#[global] Instance result_bind : MBind result := λ A B k m, rbind m k.

(** [try: body / except Exception as e: handler]. *)
Definition try_except {A} (body : result A) (handler : exn → A) : A :=
  match body with
  | Ok a => a
  | Raise e => handler e
  end.

(** ** Syntax trees

    One constructor per node class the analyses distinguish, and [Other]
    for every remaining class of the [ast] module (statements, expressions,
    operators, [arguments], [keyword], ...), its children kept in the order
    of the class's [_fields].  [lineno] is present on the classes that carry
    a position. *)

Set Warnings "-register-all".

Inductive expr_context : Type := Load | Store | Del.

Inductive constant : Type :=
| CStr (s : string)
| CInt (z : Z)
| CBool (b : bool)
| CNone
| COther (repr : string).

Inductive node : Type :=
| Module (body : list node) (type_ignores : list node)
| FunctionDef (lineno : Z) (name : string) (args : node) (body : list node)
    (decorator_list : list node) (returns : option node)
    (type_params : list node)
| AsyncFunctionDef (lineno : Z) (name : string) (args : node)
    (body : list node) (decorator_list : list node) (returns : option node)
    (type_params : list node)
| Lambda (lineno : Z) (args : node) (body : node)
| Call (lineno : Z) (func : node) (args : list node) (keywords : list node)
| Name (lineno : Z) (id : string) (ctx : expr_context)
| Attribute (lineno : Z) (value : node) (attr : string) (ctx : expr_context)
| Constant (lineno : Z) (value : constant)
| Arg (lineno : Z) (arg : string) (annotation : option node)
| Context (ctx : expr_context)
| Other (cls : string) (lineno : option Z) (children : list node).

Definition opt_list {A} (o : option A) : list A :=
  match o with
  | Some a => [a]
  | None => []
  end.

(** [ast.iter_child_nodes]: the fields that are nodes, and the items of the
    fields that are lists of nodes, in [_fields] order. *)
Definition iter_child_nodes (n : node) : list node :=
  match n with
  | Module body type_ignores => body ++ type_ignores
  | FunctionDef _ _ args body decorator_list returns type_params
  | AsyncFunctionDef _ _ args body decorator_list returns type_params =>
      args :: body ++ decorator_list ++ opt_list returns ++ type_params
  | Lambda _ args body => [args; body]
  | Call _ func args keywords => func :: args ++ keywords
  | Name _ _ ctx => [Context ctx]
  | Attribute _ value _ ctx => [value; Context ctx]
  | Constant _ _ => []
  | Arg _ _ annotation => opt_list annotation
  | Context _ => []
  | Other _ _ children => children
  end.

(** [node.lineno]; classes without a position raise [AttributeError]. *)
Definition get_lineno (n : node) : result Z :=
  match n with
  | FunctionDef l _ _ _ _ _ _ | AsyncFunctionDef l _ _ _ _ _ _
  | Lambda l _ _ | Call l _ _ _ | Name l _ _ | Attribute l _ _ _
  | Constant l _ | Arg l _ _ => Ok l
  | Other _ (Some l) _ => Ok l
  | Module _ _ | Context _ | Other _ None _ => Raise (AttributeError "lineno")
  end.

(** Number of nodes of a tree, the measure that bounds [ast.walk]. *)
Fixpoint node_size (n : node) : nat :=
  let sizes := foldr (λ c acc, (node_size c + acc)%nat) O in
  let osize := λ o : option node,
    match o with Some c => node_size c | None => O end in
  match n with
  | Module body type_ignores => S (sizes body + sizes type_ignores)
  | FunctionDef _ _ args body decorator_list returns type_params
  | AsyncFunctionDef _ _ args body decorator_list returns type_params =>
      S (node_size args + sizes body + sizes decorator_list + osize returns
         + sizes type_params)
  | Lambda _ args body => S (node_size args + node_size body)
  | Call _ func args keywords => S (node_size func + sizes args + sizes keywords)
  | Name _ _ _ => 2
  | Attribute _ value _ _ => S (S (node_size value))
  | Constant _ _ => 1
  | Arg _ _ annotation => S (osize annotation)
  | Context _ => 1
  | Other _ _ children => S (sizes children)
  end.

Definition forest_size (l : list node) : nat :=
  foldr (λ c acc, (node_size c + acc)%nat) O l.

(** [ast.walk]:
<<
    todo = deque([node])
    while todo:
        node = todo.popleft()
        todo.extend(iter_child_nodes(node))
        yield node
>>
    Each turn of the loop removes one node of the forest still to be
    visited, so [forest_size todo] turns empty the queue. *)
Fixpoint walk_loop (fuel : nat) (todo : list node) : list node :=
  match fuel with
  | O => []
  | S fuel =>
      match todo with
      | [] => []
      | n :: todo => n :: walk_loop fuel (todo ++ iter_child_nodes n)
      end
  end.

Definition walk_queue (todo : list node) : list node :=
  walk_loop (forest_size todo) todo.

Definition walk (n : node) : list node := walk_queue [n].

Arguments walk_queue : simpl never.
Arguments walk : simpl never.

(** Depth-first, parent-first listing of a tree by structural recursion: the
    order the specification calls pre-order. *)
Fixpoint preorder (n : node) : list node :=
  let opt := λ o : option node,
    match o with Some c => preorder c | None => [] end in
  n :: match n with
       | Module body type_ignores =>
           (body ≫= preorder) ++ (type_ignores ≫= preorder)
       | FunctionDef _ _ args body decorator_list returns type_params
       | AsyncFunctionDef _ _ args body decorator_list returns type_params =>
           preorder args ++ (body ≫= preorder)
           ++ (decorator_list ≫= preorder) ++ opt returns
           ++ (type_params ≫= preorder)
       | Lambda _ args body => preorder args ++ preorder body
       | Call _ func args keywords =>
           preorder func ++ (args ≫= preorder) ++ (keywords ≫= preorder)
       | Name _ _ ctx => [Context ctx]
       | Attribute _ value _ ctx => preorder value ++ [Context ctx]
       | Constant _ _ => []
       | Arg _ _ annotation => opt annotation
       | Context _ => []
       | Other _ _ children => children ≫= preorder
       end.

(** [d] lies strictly below [a] in the tree. *)
Inductive descendant (a : node) : node → Prop :=
| descendant_child c : c ∈ iter_child_nodes a → descendant a c
| descendant_step c d :
    c ∈ iter_child_nodes a → descendant c d → descendant a d.

(** ** networkx.DiGraph, as far as [add_node] and [add_edge] go

    A simple directed graph: a set of nodes and a set of ordered pairs. *)

Record DiGraph : Type := mkDiGraph {
  nodes : gset string;
  edges : gset (string * string)
}.

Definition empty_graph : DiGraph := mkDiGraph ∅ ∅.

Definition add_node (g : DiGraph) (n : string) : DiGraph :=
  mkDiGraph ({[n]} ∪ nodes g) (edges g).

(** [add_edge] also enters both end points among the nodes. *)
Definition add_edge (g : DiGraph) (u v : string) : DiGraph :=
  mkDiGraph ({[u; v]} ∪ nodes g) ({[(u, v)]} ∪ edges g).

(** ** Helpers for the Python idioms of the source *)

(** [for x in l: s = body(s, x)], where the body may raise. *)
Fixpoint for_each {A S} (l : list A) (s : S) (body : S → A → result S)
  : result S :=
  match l with
  | [] => Ok s
  | x :: l => s' ← body s x; for_each l s' body
  end.

(** [sorted(set(lines))]. *)
Definition py_set (lines : list Z) : gset Z := list_to_set lines.
Definition sorted (s : gset Z) : list Z := merge_sort Z.le (elements s).

(** [node.name if isinstance(node, ast.FunctionDef)]. *)
Definition function_name (n : node) : option string :=
  match n with
  | FunctionDef _ name _ _ _ _ _ => Some name
  | _ => None
  end.

(** ** The backend analysis functions *)

Section Analyses.

(** [ast.parse] belongs to CPython, not to the repository: any function
    from source text to a tree or a raised exception. *)
Variable ast_parse : string → result node.

(** [parse_python_functions], app.py lines 34-41. *)
Definition parse_python_functions (source_code : string) : list string :=
  try_except
    (tree ← ast_parse source_code;
     let funcs := omap function_name (walk tree) in
     mret funcs)
    (λ e, []).

(** [find_variable_usage], app.py lines 43-53. *)
Definition usage_step (var_name : string) (lines : list Z) (n : node)
  : list Z :=
  match n with
  | Name lineno id _ =>
      if decide (id = var_name) then lines ++ [lineno] else lines
  | _ => lines
  end.

Definition find_variable_usage (source_code var_name : string) : list Z :=
  try_except
    (tree ← ast_parse source_code;
     let lines := foldl (usage_step var_name) [] (walk tree) in
     mret (sorted (py_set lines)))
    (λ e, []).

(** [find_long_functions], app.py lines 55-69.  [node.body[-1].lineno] is
    evaluated before [node.body[0].lineno]. *)
Definition long_step (length_threshold : Z) (long_funcs : list (string * Z))
    (n : node) : result (list (string * Z)) :=
  match n with
  | FunctionDef _ name _ body _ _ _ =>
      match head body, last body with
      | Some first, Some final =>
          l_final ← get_lineno final;
          l_first ← get_lineno first;
          let func_len := l_final - l_first + 1 in
          if decide (func_len > length_threshold)
          then mret (long_funcs ++ [(name, func_len)])
          else mret long_funcs
      | _, _ => mret long_funcs
      end
  | _ => mret long_funcs
  end.

Definition find_long_functions (source_code : string) (length_threshold : Z)
  : list (string * Z) :=
  try_except
    (tree ← ast_parse source_code;
     long_funcs ← for_each (walk tree) [] (long_step length_threshold);
     mret long_funcs)
    (λ e, []).

(** [build_call_graph], app.py lines 71-86. *)
Definition funcs_step (funcs : gmap string node) (n : node)
  : gmap string node :=
  match n with
  | FunctionDef _ name _ _ _ _ _ => <[name := n]> funcs
  | _ => funcs
  end.

Definition funcs_of (tree : node) : gmap string node :=
  foldl funcs_step ∅ (walk tree).

Definition call_step (funcs : gmap string node) (func_name : string)
    (graph : DiGraph) (n : node) : DiGraph :=
  match n with
  | Call _ (Name _ called_func _) _ _ =>
      if decide (called_func ∈ dom funcs)
      then add_edge graph func_name called_func
      else graph
  | _ => graph
  end.

Definition func_step (funcs : gmap string node) (graph : DiGraph)
    (item : string * node) : DiGraph :=
  let '(func_name, func_node) := item in
  foldl (call_step funcs func_name) (add_node graph func_name)
        (walk func_node).

(** [graph_of] visits the items of [funcs] in the order of [map_to_list];
    the graph, a set of nodes and a set of edges, is the same for every
    order of the items (see [foldl_func_step_order]). *)
Definition graph_of (tree : node) : DiGraph :=
  let funcs := funcs_of tree in
  foldl (func_step funcs) empty_graph (map_to_list funcs).

Definition build_call_graph (source_code : string) : DiGraph :=
  try_except
    (tree ← ast_parse source_code;
     mret (graph_of tree))
    (λ e, empty_graph).

End Analyses.

(** ** Trees of the sources used as examples *)

Definition no_arguments : node := Other "arguments" None [].
Definition Pass (l : Z) : node := Other "Pass" (Some l) [].
Definition Expr (l : Z) (value : node) : node := Other "Expr" (Some l) [value].
Definition Assign (l : Z) (targets : list node) (value : node) : node :=
  Other "Assign" (Some l) (targets ++ [value]).
Definition BinOp (l : Z) (left : node) (op : string) (right : node) : node :=
  Other "BinOp" (Some l) [left; Other op None []; right].
Definition def (l : Z) (name : string) (body : list node) : node :=
  FunctionDef l name no_arguments body [] None [].

(** [def f(): pass / def g(): f()] *)
Definition tree_scenario_A : node :=
  Module [def 1 "f" [Pass 1];
          def 2 "g" [Expr 2 (Call 2 (Name 2 "f" Load) [] [])]] [].

(** [x = 1 / print(x) / x = x + 1] *)
Definition tree_scenario_B : node :=
  Module [Assign 1 [Name 1 "x" Store] (Constant 1 (CInt 1));
          Expr 2 (Call 2 (Name 2 "print" Load) [Name 2 "x" Load] []);
          Assign 3 [Name 3 "x" Store]
            (BinOp 3 (Name 3 "x" Load) "Add" (Constant 3 (CInt 1)))] [].

(** [x = 1] *)
Definition tree_assign_only : node :=
  Module [Assign 1 [Name 1 "x" Store] (Constant 1 (CInt 1))] [].

(** [def a(): / def b(): pass / def c(): pass], [b] inside [a]. *)
Definition tree_nested_sibling : node :=
  Module [def 1 "a" [def 2 "b" [Pass 2]]; def 3 "c" [Pass 3]] [].

(** [def h(): k() / def h(): pass / def k(): pass] *)
Definition tree_redefined : node :=
  Module [def 1 "h" [Expr 1 (Call 1 (Name 1 "k" Load) [] [])];
          def 2 "h" [Pass 2];
          def 3 "k" [Pass 3]] [].

(** [def f(): / def g(): / h()], [g] inside [f], followed by
    [def h(): pass]. *)
Definition tree_nested_call : node :=
  Module [def 1 "f" [def 2 "g" [Expr 3 (Call 3 (Name 3 "h" Load) [] [])]];
          def 4 "h" [Pass 4]] [].

(** The same, followed by a second [def f(): pass]. *)
Definition tree_nested_call_redefined : node :=
  Module [def 1 "f" [def 2 "g" [Expr 3 (Call 3 (Name 3 "h" Load) [] [])]];
          def 4 "h" [Pass 4];
          def 5 "f" [Pass 5]] [].

(** Four empty lines, [def f():] on line 5 and one [pass] on each of the
    lines 6 to 14. *)
Definition tree_lines_5_14 : node :=
  Module [def 5 "f" (Pass <$> [6; 7; 8; 9; 10; 11; 12; 13; 14])] [].

(** [async def a(): pass / f = lambda: 0] *)
Definition tree_async_lambda : node :=
  Module [AsyncFunctionDef 1 "a" no_arguments [Pass 1] [] None [];
          Assign 2 [Name 2 "f" Store]
            (Lambda 2 no_arguments (Constant 2 (CInt 0)))] [].

Definition src_scenario_A : string := "def f(): pass
def g(): f()".
Definition src_scenario_B : string := "x = 1
print(x)
x = x + 1".
Definition src_assign_only : string := "x = 1".
Definition src_nested_sibling : string := "def a():
    def b(): pass
def c(): pass".
Definition src_redefined : string := "def h(): k()
def h(): pass
def k(): pass".
Definition src_nested_call : string := "def f():
 def g():
  h()
def h(): pass".
Definition src_nested_call_redefined : string := "def f():
 def g():
  h()
def h(): pass
def f(): pass".
Definition src_lines_5_14 : string := "



def f():
 pass
 pass
 pass
 pass
 pass
 pass
 pass
 pass
 pass".
Definition src_async_lambda : string := "async def a(): pass
f = lambda: 0".
Definition src_unparsable : string := "def f(:".

Definition sample_sources : list (string * node) :=
  [(src_scenario_A, tree_scenario_A);
   (src_scenario_B, tree_scenario_B);
   (src_assign_only, tree_assign_only);
   (src_nested_sibling, tree_nested_sibling);
   (src_redefined, tree_redefined);
   (src_nested_call, tree_nested_call);
   (src_nested_call_redefined, tree_nested_call_redefined);
   (src_lines_5_14, tree_lines_5_14);
   (src_async_lambda, tree_async_lambda)].

(** An excerpt of [ast.parse]: the trees CPython builds for the sources
    above.  [src_unparsable] is a syntax error in Python; the excerpt
    answers [SyntaxError] on every text it does not list. *)
Definition sample_parse (source_code : string) : result node :=
  match list_find (λ entry, entry.1 = source_code) sample_sources with
  | Some (_, (_, tree)) => Ok tree
  | None => Raise (SyntaxError "invalid syntax")
  end.

(** ** The listings the analyses are compared with *)

(** The definition nodes [ast.walk] yields, in its order. *)
Definition function_defs (tree : node) : list node :=
  filter (λ n, is_Some (function_name n)) (walk tree).

(** The catalogue as the specification words it, written on the tree
    itself.  A function-definition node is a node of class [FunctionDef]; an
    [async def] is of class [AsyncFunctionDef], another class, and gives no
    name here, nor does a [lambda].

    [definition_names]: the name of every [FunctionDef] node of the tree,
    nested ones included, parent first and depth first. *)
Fixpoint definition_names (n : node) : list string :=
  let opt := λ o : option node,
    match o with Some c => definition_names c | None => [] end in
  match n with
  | Module body type_ignores =>
      (body ≫= definition_names) ++ (type_ignores ≫= definition_names)
  | FunctionDef _ name args body decorator_list returns type_params =>
      name :: definition_names args ++ (body ≫= definition_names)
      ++ (decorator_list ≫= definition_names) ++ opt returns
      ++ (type_params ≫= definition_names)
  | AsyncFunctionDef _ _ args body decorator_list returns type_params =>
      definition_names args ++ (body ≫= definition_names)
      ++ (decorator_list ≫= definition_names) ++ opt returns
      ++ (type_params ≫= definition_names)
  | Lambda _ args body => definition_names args ++ definition_names body
  | Call _ func args keywords =>
      definition_names func ++ (args ≫= definition_names)
      ++ (keywords ≫= definition_names)
  | Name _ _ _ => []
  | Attribute _ value _ _ => definition_names value
  | Constant _ _ => []
  | Arg _ _ annotation => opt annotation
  | Context _ => []
  | Other _ _ children => children ≫= definition_names
  end.

(** The number N of function-definition nodes of a tree. *)
Definition function_definition_count (tree : node) : nat :=
  length (definition_names tree).

(** The name a node contributes by itself: its own, when it is a
    [FunctionDef]. *)
Definition definition_name_here (n : node) : list string :=
  match n with
  | FunctionDef _ name _ _ _ _ _ => [name]
  | _ => []
  end.

(** The names of the definitions that lie [k] levels below [n], from left
    to right; and the nodes of that level. *)
Fixpoint level_names (k : nat) (n : node) : list string :=
  match k with
  | O => definition_name_here n
  | S k => iter_child_nodes n ≫= level_names k
  end.

Fixpoint level (k : nat) (n : node) : list node :=
  match k with
  | O => [n]
  | S k => iter_child_nodes n ≫= level k
  end.

(** Breadth-first order: level after level from the root, left to right
    within a level.  A tree has fewer levels than nodes. *)
Definition breadth_first_names (tree : node) : list string :=
  seq 0 (node_size tree) ≫= (λ k, level_names k tree).

(** [node.lineno] of a [Name] node whose [id] is [var_name]. *)
Definition name_line (var_name : string) (n : node) : option Z :=
  match n with
  | Name lineno id _ => if decide (id = var_name) then Some lineno else None
  | _ => None
  end.

(** The callee of a call whose [func] is a bare name. *)
Definition callee (n : node) : option string :=
  match n with
  | Call _ (Name _ called_func _) _ _ => Some called_func
  | _ => None
  end.

(** What one definition node adds to the report of long functions when
    both ends of its body have a line number. *)
Definition long_entry (length_threshold : Z) (n : node)
  : option (string * Z) :=
  match n with
  | FunctionDef _ name _ body _ _ _ =>
      match head body, last body with
      | Some first, Some final =>
          match get_lineno final, get_lineno first with
          | Ok l_final, Ok l_first =>
              if decide (l_final - l_first + 1 > length_threshold)
              then Some (name, l_final - l_first + 1)
              else None
          | _, _ => None
          end
      | _, _ => None
      end
  | _ => None
  end.

(** Every statement of every function body carries a line number, as in
    the trees [ast.parse] builds. *)
Definition has_lineno (n : node) : bool :=
  match get_lineno n with
  | Ok _ => true
  | Raise _ => false
  end.

Definition body_positioned (n : node) : bool :=
  match n with
  | FunctionDef _ _ _ body _ _ _ => forallb has_lineno body
  | _ => true
  end.

Definition positioned (tree : node) : bool :=
  forallb body_positioned (walk tree).

(** Following the specification's words: the length of a function is
    [end_line - start_line + 1] over its whole span, from the line of its
    [def] to the last line of its subtree. *)
Definition spec_end_line (n : node) : Z :=
  foldr (λ c acc, Z.max (try_except (get_lineno c) (λ e, 0)) acc) 0 (walk n).

Definition spec_long_entry (length_threshold : Z) (n : node)
  : option (string * Z) :=
  match n with
  | FunctionDef start_line name _ _ _ _ _ =>
      let length := spec_end_line n - start_line + 1 in
      if decide (length > length_threshold) then Some (name, length) else None
  | _ => None
  end.

Definition spec_long_functions (tree : node) (length_threshold : Z)
  : list (string * Z) :=
  omap (spec_long_entry length_threshold) (walk tree).

(** ** What the tabs of the page test, and the spans behind the report *)

(** [DiGraph.number_of_nodes]. *)
Definition number_of_nodes (g : DiGraph) : nat := size (nodes g).

(** The truth value of a list in a condition, as in [if funcs:]. *)
Definition truthy {A} (l : list A) : bool :=
  match l with
  | [] => false
  | _ :: _ => true
  end.

Section Tabs.

Variable ast_parse : string → result node.

(** Tab 1, app.py lines 120-126: [if funcs:] lists the functions, the other
    branch warns. *)
Definition tab1_lists_functions (code : string) : bool :=
  truthy (parse_python_functions ast_parse code).

(** Tab 4, app.py lines 159-164: [if graph.number_of_nodes() > 0:] plots
    the graph, the other branch warns. *)
Definition tab4_plots_graph (code : string) : bool :=
  bool_decide (0 < number_of_nodes (build_call_graph ast_parse code))%nat.

End Tabs.

(** [node.body[-1].lineno - node.body[0].lineno + 1] of a definition with a
    body, before the comparison with the threshold. *)
Definition body_span (n : node) : result (option (string * Z)) :=
  match n with
  | FunctionDef _ name _ body _ _ _ =>
      match head body, last body with
      | Some first, Some final =>
          l_final ← get_lineno final;
          l_first ← get_lineno first;
          mret (Some (name, l_final - l_first + 1))
      | _, _ => mret None
      end
  | _ => mret None
  end.

Fixpoint body_spans (l : list node) : result (list (string * Z)) :=
  match l with
  | [] => Ok []
  | n :: l =>
      s ← body_span n;
      r ← body_spans l;
      mret (opt_list s ++ r)
  end.

(** No definition of the tree has more than one statement in its body. *)
Definition single_statement_bodies (tree : node) : bool :=
  forallb (λ n, match n with
                | FunctionDef _ _ _ body _ _ _ =>
                    bool_decide (length body ≤ 1)%nat
                | _ => true
                end) (walk tree).

(** Membership in a list written out in full. *)
Ltac elem_of_concrete :=
  simpl; repeat first [apply list_elem_of_here | apply list_elem_of_further].

(** * Properties of the traversal *)

Section Walk.

Lemma forest_size_app (l1 l2 : list node) :
  forest_size (l1 ++ l2) = (forest_size l1 + forest_size l2)%nat.
Proof.
  induction l1 as [|c l1 IH]; simpl; [done|]. rewrite IH. lia.
Qed.

Lemma node_size_children (n : node) :
  node_size n = S (forest_size (iter_child_nodes n)).
Proof.
  destruct n as [b t|l n a b d r t|l n a b d r t|l a b|l f a k|l i c
                |l v a c|l v|l a o|c|c l ch]; simpl;
    change (foldr (λ c acc, (node_size c + acc)%nat) O) with forest_size;
    rewrite ?forest_size_app; try destruct r; try destruct o; simpl; lia.
Qed.

Lemma node_size_pos (n : node) : (0 < node_size n)%nat.
Proof. rewrite node_size_children. lia. Qed.

(** Any fuel that covers the forest gives the same listing. *)
Lemma walk_loop_fuel (f1 f2 : nat) (todo : list node) :
  (forest_size todo ≤ f1)%nat → (forest_size todo ≤ f2)%nat →
  walk_loop f1 todo = walk_loop f2 todo.
Proof.
  revert f2 todo. induction f1 as [|f1 IH]; intros f2 [|n todo] H1 H2.
  - by destruct f2.
  - simpl in H1. pose proof (node_size_pos n). lia.
  - by destruct f2.
  - destruct f2 as [|f2].
    { simpl in H2. pose proof (node_size_pos n). lia. }
    simpl. f_equal. simpl in H1, H2.
    rewrite node_size_children in H1, H2.
    apply IH; rewrite forest_size_app; lia.
Qed.

Lemma walk_queue_nil : walk_queue [] = [].
Proof. done. Qed.

(** The loop of [ast.walk], one turn. *)
Lemma walk_queue_cons (n : node) (todo : list node) :
  walk_queue (n :: todo) = n :: walk_queue (todo ++ iter_child_nodes n).
Proof.
  unfold walk_queue. simpl forest_size.
  rewrite node_size_children. simpl. f_equal.
  apply walk_loop_fuel; rewrite forest_size_app; lia.
Qed.

(** Induction along the turns of the loop. *)
Lemma walk_queue_ind (P : list node → list node → Prop) :
  P [] [] →
  (∀ n todo,
     P (todo ++ iter_child_nodes n) (walk_queue (todo ++ iter_child_nodes n)) →
     P (n :: todo) (n :: walk_queue (todo ++ iter_child_nodes n))) →
  ∀ todo, P todo (walk_queue todo).
Proof.
  intros Hnil Hcons todo.
  remember (forest_size todo) as k eqn:Hk.
  revert todo Hk. induction (lt_wf k) as [k _ IH]. intros [|n todo] Hk.
  - by rewrite walk_queue_nil.
  - rewrite walk_queue_cons. apply Hcons.
    eapply IH; [|reflexivity]. subst k. simpl.
    rewrite forest_size_app, (node_size_children n). lia.
Qed.

Lemma walk_head (n : node) : ∃ l, walk n = n :: l.
Proof. unfold walk. rewrite walk_queue_cons. eauto. Qed.

(** Everything queued is yielded. *)
Lemma walk_queue_queued (todo : list node) (r : node) :
  r ∈ todo → r ∈ walk_queue todo.
Proof.
  revert r. apply (walk_queue_ind (λ q out, ∀ r, r ∈ q → r ∈ out)).
  - done.
  - intros n q IH r [->|Hr]%elem_of_cons; [left|right].
    apply IH. set_solver.
Qed.

(** A yielded node's children are yielded after it. *)
Lemma walk_queue_child_later (l1 l2 : list node) (a c : node) :
  ∀ todo, walk_queue todo = l1 ++ a :: l2 →
  c ∈ iter_child_nodes a → c ∈ l2.
Proof.
  induction l1 as [|x l1 IH]; intros [|n todo] Hw Hc;
    try discriminate Hw; rewrite walk_queue_cons in Hw; simpl in Hw.
  - injection Hw as -> <-. apply walk_queue_queued. set_solver.
  - injection Hw as -> Hw. eauto.
Qed.

(** So are all the nodes below it. *)
Lemma walk_queue_descendant_later (a d : node) :
  descendant a d →
  ∀ todo l1 l2, walk_queue todo = l1 ++ a :: l2 → d ∈ l2.
Proof.
  induction 1 as [a c Hc|a c d Hc _ IH]; intros todo l1 l2 Hw.
  - eapply walk_queue_child_later; eauto.
  - pose proof (walk_queue_child_later _ _ _ _ _ Hw Hc) as Hin.
    apply list_elem_of_split in Hin as (l3 & l4 & ->).
    assert (d ∈ l4); [|set_solver].
    apply (IH todo (l1 ++ a :: l3) l4). by rewrite <- app_assoc.
Qed.

(** What [ast.walk] yields: the queued nodes and everything below them. *)
Lemma elem_of_walk_queue (todo : list node) (x : node) :
  x ∈ walk_queue todo ↔ ∃ r, r ∈ todo ∧ (x = r ∨ descendant r x).
Proof.
  split.
  - revert x. apply (walk_queue_ind (λ q out,
      ∀ x, x ∈ out → ∃ r, r ∈ q ∧ (x = r ∨ descendant r x))).
    + intros x Hx. by apply elem_of_nil in Hx.
    + intros n q IH x [->|Hx]%elem_of_cons.
      { exists n. split; [left|by left]. }
      destruct (IH x Hx) as (r & [Hr|Hr]%elem_of_app & Hd).
      * exists r. split; [by right|done].
      * exists n. split; [left|right].
        destruct Hd as [->|Hd]; [by constructor|].
        eapply descendant_step; eauto.
  - intros (r & Hr & [->|Hd]); [by apply walk_queue_queued|].
    apply walk_queue_queued in Hr.
    apply list_elem_of_split in Hr as (l1 & l2 & Hw).
    pose proof (walk_queue_descendant_later _ _ Hd _ _ _ Hw).
    rewrite Hw. set_solver.
Qed.

Lemma elem_of_walk (t x : node) : x ∈ walk t ↔ x = t ∨ descendant t x.
Proof.
  unfold walk. rewrite elem_of_walk_queue. split.
  - intros (r & ->%list_elem_of_singleton & H). done.
  - intros H. exists t. split; [by left|done].
Qed.

Lemma descendant_trans (a b c : node) :
  descendant a b → descendant b c → descendant a c.
Proof.
  induction 1 as [a b Hb|a x b Hx _ IH]; intros Hc.
  - eapply descendant_step; eauto.
  - eapply descendant_step; eauto.
Qed.

Lemma walk_nested (t a x : node) : a ∈ walk t → x ∈ walk a → x ∈ walk t.
Proof.
  rewrite !elem_of_walk. intros [->|Ha] [->|Hx]; eauto using descendant_trans.
Qed.

Lemma preorder_children (n : node) :
  preorder n = n :: (iter_child_nodes n ≫= preorder).
Proof.
  destruct n as [b t|l n a b d r t|l n a b d r t|l a b|l f a k|l i c
                |l v a c|l v|l a o|c|c l ch]; simpl; f_equal;
    rewrite ?bind_app; simpl; rewrite ?app_nil_r;
    try destruct r; try destruct o; simpl; rewrite ?app_nil_r; done.
Qed.

(** Breadth-first and depth-first listings hold the same nodes, each as
    often. *)
Lemma walk_queue_preorder (todo : list node) :
  walk_queue todo ≡ₚ todo ≫= preorder.
Proof.
  apply (walk_queue_ind (λ q out, out ≡ₚ q ≫= preorder)); [done|].
  intros n q IH. rewrite IH, bind_app, bind_cons, preorder_children. simpl.
  constructor. apply Permutation_app_comm.
Qed.

Lemma walk_preorder (t : node) : walk t ≡ₚ preorder t.
Proof.
  unfold walk. rewrite walk_queue_preorder. simpl. by rewrite app_nil_r.
Qed.

End Walk.

(** * Properties of the list and set idioms *)

Section Idioms.

Lemma omap_filter_is_Some {A B} (f : A → option B) (l : list A) :
  omap f l = omap f (filter (λ x, is_Some (f x)) l).
Proof.
  induction l as [|x l IH]; [done|].
  rewrite filter_cons. cbn. destruct (f x) as [y|] eqn:Hx.
  - rewrite decide_True by eauto. cbn. by rewrite Hx, IH.
  - rewrite decide_False by (by intros [? ?]). done.
Qed.

Lemma length_omap_filter {A B} (f : A → option B) (l : list A) :
  length (omap f l) = length (filter (λ x, is_Some (f x)) l).
Proof.
  induction l as [|x l IH]; [done|].
  rewrite filter_cons. cbn. destruct (f x) as [y|] eqn:Hx.
  - rewrite decide_True by eauto. cbn. by rewrite IH.
  - rewrite decide_False by (by intros [? ?]). done.
Qed.

(** A position in a filtered list is a position in the list. *)
Lemma filter_split {A} (P : A → Prop) `{!∀ x, Decision (P x)}
    (l l1 l2 : list A) (a : A) :
  filter P l = l1 ++ a :: l2 →
  ∃ w1 w2, l = w1 ++ a :: w2 ∧ filter P w1 = l1 ∧ filter P w2 = l2.
Proof.
  revert l1. induction l as [|x l IH]; intros l1 Hf.
  { by destruct l1. }
  rewrite filter_cons in Hf. destruct (decide (P x)) as [Hx|Hx].
  - destruct l1 as [|y l1]; simpl in Hf.
    + injection Hf as -> Hf. by exists [], l.
    + injection Hf as -> Hf. destruct (IH _ Hf) as (w1 & w2 & -> & H1 & H2).
      exists (y :: w1), w2. rewrite filter_cons, decide_True by done.
      by rewrite H1.
  - destruct (IH _ Hf) as (w1 & w2 & -> & H1 & H2).
    exists (x :: w1), w2. by rewrite filter_cons, decide_False.
Qed.

Lemma StronglySorted_le_lt (l : list Z) :
  StronglySorted Z.le l → NoDup l → StronglySorted Z.lt l.
Proof.
  induction 1 as [|x l _ IH Hx]; intros Hnd; [constructor|].
  apply NoDup_cons in Hnd as [Hnx Hnd]. constructor.
  - by apply IH.
  - rewrite Forall_forall in *. intros y Hy.
    pose proof (Hx y Hy). assert (x ≠ y) by (by intros ->). lia.
Qed.

(** [sorted(set(lines))] is ascending, free of repetitions, and holds the
    members of [lines]. *)
Lemma sorted_set_ascending (lines : list Z) :
  StronglySorted Z.lt (sorted (py_set lines)).
Proof.
  unfold sorted. apply StronglySorted_le_lt.
  - apply StronglySorted_merge_sort; apply _.
  - rewrite merge_sort_Permutation. apply NoDup_elements.
Qed.

Lemma sorted_set_NoDup (lines : list Z) : NoDup (sorted (py_set lines)).
Proof.
  unfold sorted. rewrite merge_sort_Permutation. apply NoDup_elements.
Qed.

Lemma elem_of_sorted_set (lines : list Z) (x : Z) :
  x ∈ sorted (py_set lines) ↔ x ∈ lines.
Proof.
  unfold sorted, py_set.
  by rewrite merge_sort_Permutation, elem_of_elements, elem_of_list_to_set.
Qed.

Lemma foldl_usage_step (var_name : string) (l : list node) (lines : list Z) :
  foldl (usage_step var_name) lines l = lines ++ omap (name_line var_name) l.
Proof.
  revert lines. induction l as [|n l IH]; intros lines; simpl.
  { by rewrite app_nil_r. }
  rewrite IH. destruct n; simpl; try done.
  case_decide; [|done]. by rewrite <- app_assoc.
Qed.

End Idioms.

(** * The loop of [find_long_functions] *)

Section LongFunctions.

Variable length_threshold : Z.

Lemma head_elem_of {A} (l : list A) (x : A) : head l = Some x → x ∈ l.
Proof. destruct l; [done|]. intros [= ->]. left. Qed.

Lemma last_elem_of {A} (l : list A) (x : A) : last l = Some x → x ∈ l.
Proof.
  intros H. apply last_Some in H as [l' ->]. set_solver.
Qed.

Lemma forallb_elem_of {A} (f : A → bool) (l : list A) (x : A) :
  forallb f l = true → x ∈ l → f x = true.
Proof.
  rewrite forallb_forall. intros H Hx. apply H. by apply list_elem_of_In.
Qed.

(** A turn of the loop that does not raise appends the node's entry. *)
Lemma long_step_Ok (long_funcs r : list (string * Z)) (n : node) :
  long_step length_threshold long_funcs n = Ok r →
  r = long_funcs ++ opt_list (long_entry length_threshold n).
Proof.
  destruct n; simpl; try (intros [= <-]; by rewrite app_nil_r).
  destruct (head body) as [first|], (last body) as [final|];
    try (intros [= <-]; by rewrite app_nil_r).
  cbn. destruct (get_lineno final) as [l_final|]; [|done].
  cbn. destruct (get_lineno first) as [l_first|]; [|done].
  cbn. case_decide; intros [= <-]; [done|by rewrite app_nil_r].
Qed.

(** On a node whose body statements carry line numbers it does not
    raise. *)
Lemma long_step_positioned (long_funcs : list (string * Z)) (n : node) :
  body_positioned n = true →
  ∃ r, long_step length_threshold long_funcs n = Ok r.
Proof.
  intros Hpos. destruct n; simpl; eauto.
  destruct (head body) as [first|] eqn:Hfirst,
    (last body) as [final|] eqn:Hfinal; eauto.
  simpl in Hpos.
  pose proof (forallb_elem_of _ _ _ Hpos (head_elem_of _ _ Hfirst)) as H1.
  pose proof (forallb_elem_of _ _ _ Hpos (last_elem_of _ _ Hfinal)) as H2.
  unfold has_lineno in H1, H2. cbn.
  destruct (get_lineno final); [|done]. cbn.
  destruct (get_lineno first); [|done]. cbn.
  case_decide; eauto.
Qed.

Lemma for_each_long_step_Ok (l : list node) (long_funcs r : list (string * Z)) :
  for_each l long_funcs (long_step length_threshold) = Ok r →
  r = long_funcs ++ omap (long_entry length_threshold) l.
Proof.
  revert long_funcs. induction l as [|n l IH]; intros long_funcs; simpl.
  { intros [= <-]. by rewrite app_nil_r. }
  destruct (long_step length_threshold long_funcs n) as [s|e] eqn:Hstep;
    [|done].
  cbn. intros Hr. apply IH in Hr as ->. apply long_step_Ok in Hstep as ->.
  rewrite <- app_assoc. f_equal.
  by destruct (long_entry length_threshold n).
Qed.

Lemma for_each_long_step_positioned (l : list node)
    (long_funcs : list (string * Z)) :
  forallb body_positioned l = true →
  for_each l long_funcs (long_step length_threshold)
  = Ok (long_funcs ++ omap (long_entry length_threshold) l).
Proof.
  intros Hpos.
  assert (∃ r, for_each l long_funcs (long_step length_threshold) = Ok r)
    as [r Hr]; [|by rewrite Hr, (for_each_long_step_Ok _ _ _ Hr)].
  revert long_funcs. induction l as [|n l IH]; intros long_funcs; simpl.
  { eauto. }
  simpl in Hpos. apply andb_true_iff in Hpos as [Hn Hl].
  destruct (long_step_positioned long_funcs n Hn) as [s ->]. cbn. eauto.
Qed.

(** An entry of the report stems from a [FunctionDef] node. *)
Lemma long_entry_Some (n : node) (name : string) (len : Z) :
  long_entry length_threshold n = Some (name, len) →
  function_name n = Some name ∧ len > length_threshold.
Proof.
  destruct n; simpl; try done.
  destruct (head body), (last body); try done.
  destruct (get_lineno n1), (get_lineno n0); try done.
  case_decide; [|done]. by intros [= -> <-].
Qed.

End LongFunctions.

(** * The dictionary [funcs] and the loops of [build_call_graph] *)

Section CallGraph.

Lemma funcs_step_lookup (funcs : gmap string node) (x : node) (a : string) :
  funcs_step funcs x !! a
  = if decide (function_name x = Some a) then Some x else funcs !! a.
Proof.
  destruct x; simpl; try done.
  rewrite lookup_insert. repeat case_decide; congruence.
Qed.

(** [funcs[a]] is the last definition of [a] that [ast.walk] yields. *)
Lemma foldl_funcs_step_lookup (l : list node) (funcs : gmap string node)
    (a : string) (fa : node) :
  foldl funcs_step funcs l !! a = Some fa ↔
    (∃ l1 l2, l = l1 ++ fa :: l2 ∧ function_name fa = Some a
              ∧ Forall (λ x, function_name x ≠ Some a) l2)
    ∨ (funcs !! a = Some fa ∧ Forall (λ x, function_name x ≠ Some a) l).
Proof.
  revert funcs. induction l as [|x l IH]; intros funcs; simpl.
  { split; [by right|]. intros [(l1 & l2 & Hl & _)|[? _]]; [|done].
    by destruct l1. }
  rewrite IH, funcs_step_lookup. split.
  - intros [(l1 & l2 & -> & Hfa & Hl2)|[Hx Hl]].
    + left. by exists (x :: l1), l2.
    + case_decide as Hnx.
      * injection Hx as ->. left. by exists [], l.
      * right. split; [done|]. by constructor.
  - intros [(l1 & l2 & Hl & Hfa & Hl2)|[Hx Hl]].
    + destruct l1 as [|y l1]; simpl in Hl; injection Hl as -> ->.
      * right. by rewrite decide_True.
      * left. by exists l1, l2.
    + apply Forall_cons in Hl as [Hnx Hl]. right. by rewrite decide_False.
Qed.

Lemma funcs_of_lookup (tree : node) (a : string) (fa : node) :
  funcs_of tree !! a = Some fa ↔
    ∃ before after, walk tree = before ++ fa :: after
      ∧ function_name fa = Some a
      ∧ Forall (λ x, function_name x ≠ Some a) after.
Proof.
  unfold funcs_of. rewrite foldl_funcs_step_lookup. split.
  - intros [H|[H _]]; [done|]. by rewrite lookup_empty in H.
  - by left.
Qed.

Lemma funcs_of_lookup_walk (tree : node) (a : string) (fa : node) :
  funcs_of tree !! a = Some fa → fa ∈ walk tree ∧ function_name fa = Some a.
Proof.
  intros (before & after & Hw & Hfa & _)%funcs_of_lookup.
  split; [|done]. rewrite Hw. set_solver.
Qed.

Lemma dom_foldl_funcs_step (l : list node) (funcs : gmap string node) :
  dom (foldl funcs_step funcs l)
  = dom funcs ∪ list_to_set (omap function_name l).
Proof.
  revert funcs. induction l as [|x l IH]; intros funcs; simpl.
  { set_solver. }
  rewrite IH. destruct x; simpl; try done.
  rewrite dom_insert_L. set_solver.
Qed.

(** The keys of [funcs] are the names of the catalogue. *)
Lemma dom_funcs_of (tree : node) :
  dom (funcs_of tree) = list_to_set (omap function_name (walk tree)).
Proof.
  unfold funcs_of. rewrite dom_foldl_funcs_step. set_solver.
Qed.

Lemma call_step_callee (funcs : gmap string node) (func_name : string)
    (graph : DiGraph) (n : node) :
  call_step funcs func_name graph n
  = match callee n with
    | Some called_func =>
        if decide (called_func ∈ dom funcs)
        then add_edge graph func_name called_func
        else graph
    | None => graph
    end.
Proof. destruct n; try done. destruct n; done. Qed.

(** The inner loop: the edges and nodes it adds for one function. *)
Lemma edges_foldl_call_step (funcs : gmap string node) (func_name : string)
    (l : list node) (graph : DiGraph) (a b : string) :
  (a, b) ∈ edges (foldl (call_step funcs func_name) graph l) ↔
    (a, b) ∈ edges graph
    ∨ (a = func_name ∧ b ∈ dom funcs ∧ ∃ n, n ∈ l ∧ callee n = Some b).
Proof.
  revert graph. induction l as [|n l IH]; intros graph; simpl.
  { set_solver. }
  rewrite IH, call_step_callee. clear IH.
  destruct (callee n) as [c|] eqn:Hc; [case_decide as Hdom|]; simpl.
  - rewrite elem_of_union, elem_of_singleton. split.
    + intros [[[= -> ->]|H]|(-> & Hb & n' & Hn' & Hb')].
      * right. repeat split; [done|]. exists n. split; [left|done].
      * by left.
      * right. repeat split; [done|]. exists n'. split; [by right|done].
    + intros [H|(-> & Hb & n' & [->|Hn']%elem_of_cons & Hb')].
      * left. by right.
      * left. left. congruence.
      * right. eauto.
  - split.
    + intros [H|(-> & Hb & n' & Hn' & Hb')]; [by left|].
      right. repeat split; [done|]. exists n'. split; [by right|done].
    + intros [H|(-> & Hb & n' & [->|Hn']%elem_of_cons & Hb')].
      * by left.
      * congruence.
      * right. eauto.
  - split.
    + intros [H|(-> & Hb & n' & Hn' & Hb')]; [by left|].
      right. repeat split; [done|]. exists n'. split; [by right|done].
    + intros [H|(-> & Hb & n' & [->|Hn']%elem_of_cons & Hb')].
      * by left.
      * congruence.
      * right. eauto.
Qed.

Lemma nodes_foldl_call_step (funcs : gmap string node) (func_name : string)
    (l : list node) (graph : DiGraph) (x : string) :
  x ∈ nodes (foldl (call_step funcs func_name) graph l) ↔
    x ∈ nodes graph
    ∨ ∃ n b, n ∈ l ∧ callee n = Some b ∧ b ∈ dom funcs
             ∧ (x = func_name ∨ x = b).
Proof.
  revert graph. induction l as [|n l IH]; intros graph; simpl.
  { split; [by left|]. intros [H|(n & b & Hn & _)]; [done|].
    by apply elem_of_nil in Hn. }
  rewrite IH, call_step_callee. clear IH.
  destruct (callee n) as [c|] eqn:Hc; [case_decide as Hdom|]; simpl.
  - rewrite !elem_of_union, !elem_of_singleton. split.
    + intros [[[->| ->]|H]|(n' & b & Hn' & Hb & Hdb & Hx)].
      * right. exists n, c. repeat split; [left|done..|by left].
      * right. exists n, c. repeat split; [left|done..|by right].
      * by left.
      * right. exists n', b. repeat split; [by right|done..].
    + intros [H|(n' & b & [->|Hn']%elem_of_cons & Hb & Hdb & Hx)].
      * left. by right.
      * left. left. assert (b = c) as -> by congruence.
        destruct Hx as [->| ->]; [by left|by right].
      * right. eauto 10.
  - split.
    + intros [H|(n' & b & Hn' & Hb & Hdb & Hx)]; [by left|].
      right. exists n', b. repeat split; [by right|done..].
    + intros [H|(n' & b & [->|Hn']%elem_of_cons & Hb & Hdb & Hx)].
      * by left.
      * congruence.
      * right. eauto 10.
  - split.
    + intros [H|(n' & b & Hn' & Hb & Hdb & Hx)]; [by left|].
      right. exists n', b. repeat split; [by right|done..].
    + intros [H|(n' & b & [->|Hn']%elem_of_cons & Hb & Hdb & Hx)].
      * by left.
      * congruence.
      * right. eauto 10.
Qed.

(** The outer loop over the items of [funcs]. *)
Lemma edges_foldl_func_step (funcs : gmap string node)
    (items : list (string * node)) (graph : DiGraph) (a b : string) :
  (a, b) ∈ edges (foldl (func_step funcs) graph items) ↔
    (a, b) ∈ edges graph
    ∨ ∃ fa, (a, fa) ∈ items ∧ b ∈ dom funcs
            ∧ ∃ n, n ∈ walk fa ∧ callee n = Some b.
Proof.
  revert graph. induction items as [|[u fu] items IH]; intros graph; simpl.
  { set_solver. }
  rewrite IH, edges_foldl_call_step. simpl. clear IH. split.
  - intros [[H|(-> & Hb & Hn)]|(fa & Hfa & Hb & Hn)].
    + by left.
    + right. exists fu. split; [left|done].
    + right. exists fa. split; [by right|done].
  - intros [H|(fa & [[= -> ->]|Hfa]%elem_of_cons & Hb & Hn)].
    + left. by left.
    + left. by right.
    + right. eauto.
Qed.

Lemma nodes_foldl_func_step (funcs : gmap string node)
    (items : list (string * node)) (graph : DiGraph) (x : string) :
  x ∈ nodes (foldl (func_step funcs) graph items) ↔
    x ∈ nodes graph
    ∨ x ∈ items.*1
    ∨ ∃ u fu n b, (u, fu) ∈ items ∧ n ∈ walk fu ∧ callee n = Some b
                  ∧ b ∈ dom funcs ∧ (x = u ∨ x = b).
Proof.
  revert graph. induction items as [|[u fu] items IH]; intros graph; simpl.
  { split; [by left|]. intros [H|[H|(u & fu & n & b & H & _)]]; [done|..].
    - by apply elem_of_nil in H.
    - by apply elem_of_nil in H. }
  rewrite IH, nodes_foldl_call_step. simpl. clear IH.
  rewrite elem_of_union, elem_of_singleton, elem_of_cons. split.
  - intros [[[->|H]|(n & b & Hn & Hb & Hdb & Hx)]
           |[H|(u' & fu' & n & b & Hi & Hn & Hb & Hdb & Hx)]].
    + right. left. by left.
    + by left.
    + right. right. exists u, fu, n, b. repeat split; [left|done..].
    + right. left. by right.
    + right. right. exists u', fu', n, b. repeat split; [by right|done..].
  - intros [H|[[->|H]
           |(u' & fu' & n & b & [[= -> ->]|Hi]%elem_of_cons
             & Hn & Hb & Hdb & Hx)]].
    + left. left. by right.
    + left. left. by left.
    + right. by left.
    + left. right. eauto 10.
    + right. right. eauto 10.
Qed.

Lemma DiGraph_eq (g1 g2 : DiGraph) :
  nodes g1 = nodes g2 → edges g1 = edges g2 → g1 = g2.
Proof. destruct g1, g2. simpl. by intros -> ->. Qed.

(** The graph does not depend on the order in which the items of [funcs]
    are visited, so the order of [map_to_list] serves as well as the
    insertion order of a Python dictionary. *)
Lemma foldl_func_step_order (funcs : gmap string node)
    (items1 items2 : list (string * node)) (graph : DiGraph) :
  items1 ≡ₚ items2 →
  foldl (func_step funcs) graph items1 = foldl (func_step funcs) graph items2.
Proof.
  intros Hperm. apply DiGraph_eq; apply set_eq.
  - intros x. rewrite !nodes_foldl_func_step.
    by setoid_rewrite Hperm.
  - intros [a b]. rewrite !edges_foldl_func_step.
    by setoid_rewrite Hperm.
Qed.

(** The edges of the graph built from a tree. *)
Lemma edges_graph_of (tree : node) (a b : string) :
  (a, b) ∈ edges (graph_of tree) ↔
    ∃ fa, funcs_of tree !! a = Some fa ∧ b ∈ dom (funcs_of tree)
          ∧ ∃ n, n ∈ walk fa ∧ callee n = Some b.
Proof.
  unfold graph_of. rewrite edges_foldl_func_step. simpl. split.
  - intros [H|(fa & Hfa & H)]; [set_solver|].
    exists fa. by rewrite <- elem_of_map_to_list.
  - intros (fa & Hfa & H). right. exists fa.
    by rewrite elem_of_map_to_list.
Qed.

(** Its nodes are the keys of [funcs]. *)
Lemma nodes_graph_of (tree : node) :
  nodes (graph_of tree) = dom (funcs_of tree).
Proof.
  apply set_eq. intros x. unfold graph_of.
  rewrite nodes_foldl_func_step. simpl. split.
  - intros [H|[H|(u & fu & n & b & Hi & Hn & Hb & Hdb & [->| ->])]].
    + set_solver.
    + apply list_elem_of_fmap in H as ([y fy] & -> & Hy%elem_of_map_to_list).
      apply elem_of_dom. eauto.
    + apply elem_of_map_to_list in Hi. apply elem_of_dom. eauto.
    + done.
  - intros [fx Hx]%elem_of_dom. right. left.
    apply list_elem_of_fmap. exists (x, fx). by rewrite elem_of_map_to_list.
Qed.

End CallGraph.

(** * The order of [ast.walk], level by level *)

Section Levels.

(** The listing of [ast.walk] goes level by level. *)
Lemma walk_queue_level (todo rest : list node) :
  walk_queue (todo ++ rest)
  = todo ++ walk_queue (rest ++ (todo ≫= iter_child_nodes)).
Proof.
  revert rest. induction todo as [|n todo IH]; intros rest; cbn.
  { by rewrite app_nil_r. }
  rewrite walk_queue_cons, <- app_assoc, IH. by rewrite <- app_assoc.
Qed.

Lemma forest_size_children (todo : list node) :
  (forest_size (todo ≫= iter_child_nodes) + length todo
   = forest_size todo)%nat.
Proof.
  induction todo as [|n todo IH]; [done|].
  rewrite bind_cons, forest_size_app.
  change (forest_size (n :: todo)) with (node_size n + forest_size todo)%nat.
  rewrite (node_size_children n). cbn [length]. lia.
Qed.

Lemma bind_level_0 (todo : list node) : todo ≫= level 0 = todo.
Proof.
  induction todo as [|n todo IH]; [done|]. by rewrite bind_cons, IH.
Qed.

Lemma bind_level_S (k : nat) (todo : list node) :
  todo ≫= level (S k) = (todo ≫= iter_child_nodes) ≫= level k.
Proof.
  induction todo as [|n todo IH]; [done|].
  by rewrite !bind_cons, bind_app, IH.
Qed.

Lemma bind_seq_S {A} (F : nat → list A) (start len : nat) :
  seq (S start) len ≫= F = seq start len ≫= (λ k, F (S k)).
Proof.
  revert start. induction len as [|len IH]; intros start; [done|].
  cbn [seq]. by rewrite !bind_cons, IH.
Qed.

Lemma bind_ext {A B} (F G : A → list B) (l : list A) :
  (∀ x, F x = G x) → l ≫= F = l ≫= G.
Proof.
  intros HFG. induction l as [|x l IH]; [done|].
  by rewrite !bind_cons, HFG, IH.
Qed.

Lemma omap_bind {A B C} (f : B → option C) (g : A → list B) (l : list A) :
  omap f (l ≫= g) = l ≫= (λ x, omap f (g x)).
Proof.
  induction l as [|x l IH]; [done|].
  by rewrite !bind_cons, omap_app, IH.
Qed.

(** [ast.walk] yields the levels of the queued forest one after the
    other. *)
Lemma walk_queue_levels (depth : nat) (todo : list node) :
  (forest_size todo ≤ depth)%nat →
  walk_queue todo = seq 0 depth ≫= (λ k, todo ≫= level k).
Proof.
  revert todo. induction depth as [|depth IH]; intros todo Hsize.
  { destruct todo as [|n todo]; [done|].
    cbn in Hsize. pose proof (node_size_pos n). lia. }
  pose proof (walk_queue_level todo []) as Hlevel.
  rewrite app_nil_r in Hlevel. cbn in Hlevel. rewrite Hlevel.
  rewrite IH.
  - cbn [seq]. rewrite bind_cons, bind_level_0, bind_seq_S. f_equal.
    apply bind_ext. intros k. by rewrite bind_level_S.
  - pose proof (forest_size_children todo).
    destruct todo; cbn in *; lia.
Qed.

Lemma walk_levels (tree : node) :
  walk tree = seq 0 (node_size tree) ≫= (λ k, level k tree).
Proof.
  unfold walk. rewrite (walk_queue_levels (node_size tree)).
  - apply bind_ext. intros k. cbn. by rewrite app_nil_r.
  - cbn. lia.
Qed.

Lemma definition_name_here_function_name (n : node) :
  definition_name_here n = opt_list (function_name n).
Proof. by destruct n. Qed.

Lemma omap_function_name_cons (n : node) (l : list node) :
  omap function_name (n :: l)
  = definition_name_here n ++ omap function_name l.
Proof. by destruct n. Qed.

Lemma level_names_level (k : nat) (n : node) :
  level_names k n = omap function_name (level k n).
Proof.
  revert n. induction k as [|k IH]; intros n; cbn.
  - by destruct n.
  - rewrite omap_bind. apply bind_ext. intros c. apply IH.
Qed.

Lemma catalog_breadth_first (tree : node) :
  omap function_name (walk tree) = breadth_first_names tree.
Proof.
  rewrite walk_levels, omap_bind. unfold breadth_first_names.
  apply bind_ext. intros k. by rewrite level_names_level.
Qed.

Lemma definition_names_children (n : node) :
  definition_names n
  = definition_name_here n ++ (iter_child_nodes n ≫= definition_names).
Proof.
  destruct n as [b t|l n a b d r t|l n a b d r t|l a b|l f a k|l i c
                |l v a c|l v|l a o|c|c l ch]; cbn; rewrite ?bind_app; cbn;
    rewrite ?app_nil_r; try destruct r; try destruct o; cbn;
    rewrite ?app_nil_r; done.
Qed.

(** The walk meets the definition nodes of the forest, each as often as
    the tree holds it. *)
Lemma walk_queue_definition_names (todo : list node) :
  omap function_name (walk_queue todo) ≡ₚ todo ≫= definition_names.
Proof.
  apply (walk_queue_ind (λ q out,
           omap function_name out ≡ₚ q ≫= definition_names)); [done|].
  intros n q IH. rewrite omap_function_name_cons, IH.
  rewrite bind_app, bind_cons, definition_names_children.
  rewrite <- !app_assoc. apply Permutation_app_head, Permutation_app_comm.
Qed.

Lemma walk_definition_names (tree : node) :
  omap function_name (walk tree) ≡ₚ definition_names tree.
Proof.
  unfold walk. rewrite walk_queue_definition_names. cbn.
  by rewrite app_nil_r.
Qed.

End Levels.

(** * The analyses on a parsed source *)

Section Parsed.

Variable ast_parse : string → result node.
Variables (source_code : string) (tree : node).
Hypothesis parsed : ast_parse source_code = Ok tree.

Lemma parse_python_functions_parsed :
  parse_python_functions ast_parse source_code
  = omap function_name (walk tree).
Proof. unfold parse_python_functions. by rewrite parsed. Qed.

Lemma find_variable_usage_parsed (var_name : string) :
  find_variable_usage ast_parse source_code var_name
  = sorted (py_set (omap (name_line var_name) (walk tree))).
Proof.
  unfold find_variable_usage. rewrite parsed. simpl.
  by rewrite foldl_usage_step.
Qed.

Lemma find_long_functions_positioned (length_threshold : Z) :
  positioned tree = true →
  find_long_functions ast_parse source_code length_threshold
  = omap (long_entry length_threshold) (walk tree).
Proof.
  intros Hpos. unfold find_long_functions. rewrite parsed. cbn.
  by rewrite for_each_long_step_positioned.
Qed.

(** Without that assumption the report is still drawn from the entries. *)
Lemma find_long_functions_entries (length_threshold : Z) (entry : string * Z) :
  entry ∈ find_long_functions ast_parse source_code length_threshold →
  entry ∈ omap (long_entry length_threshold) (walk tree).
Proof.
  unfold find_long_functions. rewrite parsed. cbn.
  destruct (for_each (walk tree) [] (long_step length_threshold))
    as [r|e] eqn:Hr; cbn.
  - apply for_each_long_step_Ok in Hr. by subst r.
  - by intros ?%elem_of_nil.
Qed.

Lemma build_call_graph_parsed :
  build_call_graph ast_parse source_code = graph_of tree.
Proof. unfold build_call_graph. by rewrite parsed. Qed.

End Parsed.

(** * The claims *)

(** C1.  When [ast.parse] raises on the source, each of the four analyses
    returns its empty result: the empty list for the catalogue, the usage
    lines and the long-function report, the empty graph for the call graph.
    The analyses are total functions into plain values, so nothing
    propagates to the caller. *)
Theorem parse_failure_gives_empty_results
    (ast_parse : string → result node) (source_code var_name : string)
    (length_threshold : Z) (e : exn) :
  ast_parse source_code = Raise e →
  parse_python_functions ast_parse source_code = []
  ∧ find_variable_usage ast_parse source_code var_name = []
  ∧ find_long_functions ast_parse source_code length_threshold = []
  ∧ build_call_graph ast_parse source_code = empty_graph.
Proof.
  intros Hfail.
  unfold parse_python_functions, find_variable_usage, find_long_functions,
    build_call_graph.
  by rewrite Hfail.
Qed.

Lemma parse_failure_gives_empty_results_witness :
  parse_python_functions sample_parse src_unparsable = []
  ∧ find_variable_usage sample_parse src_unparsable "f" = []
  ∧ find_long_functions sample_parse src_unparsable 10 = []
  ∧ build_call_graph sample_parse src_unparsable = empty_graph.
Proof.
  apply (parse_failure_gives_empty_results sample_parse src_unparsable "f" 10
           (SyntaxError "invalid syntax")).
  reflexivity.
Defined.



(** C5, as stated, fails: on [x = 1] queried with [x] line 1 is reported,
    and the only [x] on that line is the target of the assignment, a
    name in [Store] context, not a read. *)
Lemma usage_reports_assignment_target :
  ¬ (∀ line, line ∈ find_variable_usage sample_parse src_assign_only "x" →
             Name line "x" Load ∈ walk tree_assign_only).
Proof.
  intros Hclaim.
  assert (Hin : 1 ∈ find_variable_usage sample_parse src_assign_only "x").
  { assert (Hres : find_variable_usage sample_parse src_assign_only "x" = [1])
      by (vm_compute; reflexivity).
    rewrite Hres. by left. }
  apply Hclaim in Hin.
  assert (Hw : walk tree_assign_only
    = [tree_assign_only;
       Assign 1 [Name 1 "x" Store] (Constant 1 (CInt 1));
       Name 1 "x" Store; Constant 1 (CInt 1); Context Store])
    by (vm_compute; reflexivity).
  rewrite Hw in Hin.
  repeat (apply elem_of_cons in Hin as [Hin|Hin]; [discriminate Hin|]).
  by apply elem_of_nil in Hin.
Qed.

(** C5, amended.  On a parsed source the reported lines are exactly the
    lines of the [Name] nodes of the tree whose [id] is the queried string,
    whatever their context (read, assignment target or deletion), compared
    by string equality; a node of any other class (a definition, a
    parameter, a string constant, the attribute of an attribute access)
    adds no line. *)
Theorem usage_reports_name_nodes
    (ast_parse : string → result node) (source_code var_name : string)
    (tree : node) :
  ast_parse source_code = Ok tree →
  (∀ line, line ∈ find_variable_usage ast_parse source_code var_name
           ↔ ∃ ctx, Name line var_name ctx ∈ walk tree)
  ∧ (∀ n lines, (∀ line ctx, n ≠ Name line var_name ctx) →
                usage_step var_name lines n = lines).
Proof.
  intros Hp. split.
  - intros line. rewrite (find_variable_usage_parsed _ _ _ Hp).
    rewrite elem_of_sorted_set, list_elem_of_omap. split.
    + intros (n & Hn & Hline). destruct n; try discriminate. simpl in Hline.
      case_decide; [|discriminate]. injection Hline as ->. subst. eauto.
    + intros (ctx & Hn). eexists. split; [exact Hn|]. simpl.
      by rewrite decide_True.
  - intros n lines Hn. destruct n; simpl; try done.
    case_decide; [|done]. subst. by edestruct Hn.
Qed.

Lemma usage_reports_name_nodes_witness :
  (∀ line, line ∈ find_variable_usage sample_parse src_scenario_B "x"
           ↔ ∃ ctx, Name line "x" ctx ∈ walk tree_scenario_B)
  ∧ (∀ n lines, (∀ line ctx, n ≠ Name line "x" ctx) →
                usage_step "x" lines n = lines).
Proof.
  apply (usage_reports_name_nodes sample_parse src_scenario_B "x").
  reflexivity.
Defined.

(** C6.  For every source and every queried name the lines returned by
    [find_variable_usage] are strictly ascending and without repetition;
    on [x = 1 / print(x) / x = x + 1] queried with [x] they are
    [1, 2, 3]. *)
Theorem usage_lines_ascending (ast_parse : string → result node) :
  (∀ source_code var_name,
     StronglySorted Z.lt (find_variable_usage ast_parse source_code var_name)
     ∧ NoDup (find_variable_usage ast_parse source_code var_name))
  ∧ (ast_parse src_scenario_B = Ok tree_scenario_B →
     find_variable_usage ast_parse src_scenario_B "x" = [1; 2; 3]).
Proof.
  split.
  - intros source_code var_name. unfold find_variable_usage.
    destruct (ast_parse source_code) as [tree|e]; simpl.
    + split; [apply sorted_set_ascending|apply sorted_set_NoDup].
    + split; constructor.
  - intros Hp. by rewrite (find_variable_usage_parsed _ _ _ Hp).
Qed.

Lemma usage_lines_ascending_witness :
  StronglySorted Z.lt (find_variable_usage sample_parse src_scenario_B "x")
  ∧ find_variable_usage sample_parse src_scenario_B "x" = [1; 2; 3].
Proof.
  destruct (usage_lines_ascending sample_parse) as [Hsorted Hlines].
  split; [apply Hsorted|apply Hlines; reflexivity].
Defined.

(** C7, as stated, fails: for [def a(): / def b(): pass / def c(): pass]
    with [b] inside [a] the catalogue is [a, c, b], the later sibling [c]
    ahead of the nested [b], where the pre-order listing is [a, b, c]. *)
Lemma catalog_not_preorder :
  parse_python_functions sample_parse src_nested_sibling = ["a"; "c"; "b"]
  ∧ omap function_name (preorder tree_nested_sibling) = ["a"; "b"; "c"]
  ∧ parse_python_functions sample_parse src_nested_sibling
    ≠ omap function_name (preorder tree_nested_sibling).
Proof. repeat split. discriminate. Qed.

(** C7, amended.  On a parsed source the catalogue lists the names of the
    definition nodes in breadth-first order, the order in which [ast.walk]
    yields them: level after level from the root, from left to right within
    a level.  In that order every enclosing definition comes before the
    definitions nested inside it. *)
Theorem catalog_enclosing_first
    (ast_parse : string → result node) (source_code : string) (tree : node) :
  ast_parse source_code = Ok tree →
  parse_python_functions ast_parse source_code = breadth_first_names tree
  ∧ parse_python_functions ast_parse source_code
    = omap function_name (function_defs tree)
  ∧ ∀ before a after, function_defs tree = before ++ a :: after →
      ∀ d, descendant a d → is_Some (function_name d) → d ∈ after.
Proof.
  intros Hp. rewrite (parse_python_functions_parsed _ _ _ Hp).
  split; [apply catalog_breadth_first|]. split.
  - apply omap_filter_is_Some.
  - intros before a after Hdefs d Hd Hdef.
    apply filter_split in Hdefs as (w1 & w2 & Hw & _ & <-).
    apply list_elem_of_filter. split; [done|].
    eapply walk_queue_descendant_later; eauto.
Qed.

Lemma catalog_enclosing_first_witness :
  parse_python_functions sample_parse src_nested_sibling
    = breadth_first_names tree_nested_sibling
  ∧ parse_python_functions sample_parse src_nested_sibling
    = omap function_name (function_defs tree_nested_sibling)
  ∧ ∀ before a after,
      function_defs tree_nested_sibling = before ++ a :: after →
      ∀ d, descendant a d → is_Some (function_name d) → d ∈ after.
Proof.
  apply (catalog_enclosing_first sample_parse src_nested_sibling).
  reflexivity.
Defined.

(** C2, as stated, fails: in [def h(): k() / def h(): pass / def k(): pass]
    the first definition of [h] calls [k] by its bare name and [k] is in
    the catalogue, yet the graph has no edge from [h] to [k]: the dictionary
    [funcs] keeps one node per name, the last one walked, and only that one
    is scanned. *)
Lemma call_graph_skips_redefined_caller :
  ¬ (∀ a b,
       (a, b) ∈ edges (build_call_graph sample_parse src_redefined) ↔
       ∃ fa, fa ∈ walk tree_redefined ∧ function_name fa = Some a
             ∧ b ∈ parse_python_functions sample_parse src_redefined
             ∧ ∃ n, n ∈ walk fa ∧ callee n = Some b).
Proof.
  intros Hclaim.
  assert (Hedge : ("h", "k")
                  ∈ edges (build_call_graph sample_parse src_redefined)).
  { apply Hclaim.
    exists (def 1 "h" [Expr 1 (Call 1 (Name 1 "k" Load) [] [])]).
    split; [|split; [done|split]].
    - apply elem_of_walk. right. apply descendant_child. elem_of_concrete.
    - assert (Hnames : parse_python_functions sample_parse src_redefined
                       = ["h"; "h"; "k"]) by reflexivity.
      rewrite Hnames. elem_of_concrete.
    - exists (Call 1 (Name 1 "k" Load) [] []). split; [|done].
      apply elem_of_walk. right.
      apply descendant_step with (Expr 1 (Call 1 (Name 1 "k" Load) [] [])).
      + elem_of_concrete.
      + apply descendant_child. elem_of_concrete. }
  revert Hedge. by vm_compute.
Qed.

(** C2, amended.  On a parsed source the graph has the edge [a → b] exactly
    when the subtree of the last definition of [a] that [ast.walk] yields
    (decorators, defaults, annotations and body, nested definitions
    included) contains a call whose [func] is a bare name [b] of the
    catalogue.  Self-loops are edges like any other, a callee that is not a
    bare name gives no edge, and the edges form a set.  For
    [def f(): pass / def g(): f()] the edges are exactly [("g", "f")]. *)
Theorem call_graph_edges_of_kept_definitions
    (ast_parse : string → result node) (source_code : string) (tree : node) :
  ast_parse source_code = Ok tree →
  (∀ a b,
     (a, b) ∈ edges (build_call_graph ast_parse source_code) ↔
     ∃ before fa after,
       walk tree = before ++ fa :: after
       ∧ function_name fa = Some a
       ∧ Forall (λ x, function_name x ≠ Some a) after
       ∧ b ∈ parse_python_functions ast_parse source_code
       ∧ ∃ n, n ∈ walk fa ∧ callee n = Some b)
  ∧ (∀ n b, callee n = Some b ↔
            ∃ l l' ctx args keywords, n = Call l (Name l' b ctx) args keywords)
  ∧ (tree = tree_scenario_A →
     edges (build_call_graph ast_parse source_code) = {[("g", "f")]}).
Proof.
  intros Hp. rewrite (build_call_graph_parsed _ _ _ Hp).
  rewrite (parse_python_functions_parsed _ _ _ Hp). repeat split.
  - intros (fa & Hfa & Hb & Hn)%edges_graph_of.
    apply funcs_of_lookup in Hfa as (before & after & Hw & Hname & Hlast).
    exists before, fa, after. repeat split; try done.
    by rewrite dom_funcs_of, elem_of_list_to_set in Hb.
  - intros (before & fa & after & Hw & Hname & Hlast & Hb & Hn).
    apply edges_graph_of. exists fa. repeat split; try done.
    + apply funcs_of_lookup. eauto.
    + by rewrite dom_funcs_of, elem_of_list_to_set.
  - destruct n; try done. destruct n; try done. intros [= ->]. eauto 10.
  - intros (l & l' & ctx & args & keywords & ->). done.
  - intros ->. by vm_compute.
Qed.

Lemma call_graph_edges_of_kept_definitions_witness :
  edges (build_call_graph sample_parse src_scenario_A) = {[("g", "f")]}.
Proof.
  apply (call_graph_edges_of_kept_definitions sample_parse src_scenario_A
           tree_scenario_A); reflexivity.
Defined.

(** C4, as stated, fails: a function whose [def] is on line 5 and whose
    body is one statement on each of the lines 6 to 14 spans lines 5-14,
    length 10 by [end_line - start_line + 1], but with threshold 9 it is
    not reported: the code measures from the first body statement to the
    last, 9 lines here. *)
Lemma long_functions_not_whole_span :
  spec_long_functions tree_lines_5_14 9 = [("f", 10)]
  ∧ find_long_functions sample_parse src_lines_5_14 9 = []
  ∧ find_long_functions sample_parse src_lines_5_14 9
    ≠ spec_long_functions tree_lines_5_14 9.
Proof. repeat split. discriminate. Qed.

(** C4, amended.  On a parsed source, for every threshold,
    [find_long_functions] returns, in the order [ast.walk] yields the
    definition nodes, exactly the (name, length) pairs of the definitions
    whose length is strictly greater than the threshold, the length being
    the line of the last body statement minus the line of the first body
    statement plus one; a function whose first body statement is on line 5
    and whose last body statement starts on line 14 is reported with length
    10 at threshold 9 and is not reported at threshold 10. *)
Theorem long_functions_body_span
    (ast_parse : string → result node) (source_code : string) (tree : node)
    (length_threshold : Z) :
  ast_parse source_code = Ok tree →
  positioned tree = true →
  find_long_functions ast_parse source_code length_threshold
    = omap (long_entry length_threshold) (walk tree)
  ∧ (∀ n name len,
       long_entry length_threshold n = Some (name, len) ↔
       ∃ l args body decorator_list returns type_params first final
         l_first l_final,
         n = FunctionDef l name args body decorator_list returns type_params
         ∧ head body = Some first ∧ last body = Some final
         ∧ get_lineno first = Ok l_first ∧ get_lineno final = Ok l_final
         ∧ len = l_final - l_first + 1 ∧ len > length_threshold)
  ∧ (∀ l name args body decorator_list returns type_params first final,
       head body = Some first → last body = Some final →
       get_lineno first = Ok 5 → get_lineno final = Ok 14 →
       let n := FunctionDef l name args body decorator_list returns
                  type_params in
       long_entry 9 n = Some (name, 10) ∧ long_entry 10 n = None).
Proof.
  intros Hp Hpos. split; [|split].
  - by apply find_long_functions_positioned.
  - intros n name len. split.
    + destruct n; try done. simpl.
      destruct (head body) as [first|] eqn:Hfirst; [|done].
      destruct (last body) as [final|] eqn:Hfinal; [|done].
      destruct (get_lineno final) as [l_final|] eqn:Hlf; [|done].
      destruct (get_lineno first) as [l_first|] eqn:Hlh; [|done].
      case_decide; [|done]. intros [= -> <-]. eauto 20.
    + intros (l & args & body & decorator_list & returns & type_params
              & first & final & l_first & l_final
              & -> & Hfirst & Hfinal & Hlh & Hlf & -> & Hlen).
      simpl. rewrite Hfirst, Hfinal, Hlf, Hlh. by rewrite decide_True.
  - intros l name args body decorator_list returns type_params first final
      Hfirst Hfinal Hlh Hlf. simpl. by rewrite Hfirst, Hfinal, Hlh, Hlf.
Qed.

Lemma long_functions_body_span_witness :
  find_long_functions sample_parse src_lines_5_14 8
  = omap (long_entry 8) (walk tree_lines_5_14).
Proof.
  apply (long_functions_body_span sample_parse src_lines_5_14
           tree_lines_5_14 8); reflexivity.
Defined.

(** C8.  For every source, parsed or not, every node of the graph that
    [build_call_graph] returns is a name of the catalogue that
    [parse_python_functions] returns for the same source. *)
Theorem call_graph_nodes_in_catalog
    (ast_parse : string → result node) (source_code : string) :
  nodes (build_call_graph ast_parse source_code)
  ⊆ list_to_set (parse_python_functions ast_parse source_code).
Proof.
  unfold build_call_graph, parse_python_functions.
  destruct (ast_parse source_code) as [tree|e]; cbn; [|done].
  by rewrite nodes_graph_of, dom_funcs_of.
Qed.

(** C9.  On a parsed source every name of the catalogue, every entry of the
    long-function report and every node of the call graph stems from a
    plain [FunctionDef] node of the tree.  [AsyncFunctionDef] and [Lambda]
    nodes are never taken for definitions, so a tree whose only
    function-like nodes are of these two classes gives an empty catalogue,
    an empty report and a graph without nodes. *)
Theorem only_plain_definitions_count
    (ast_parse : string → result node) (source_code : string) (tree : node)
    (length_threshold : Z) :
  ast_parse source_code = Ok tree →
  let plain_definition name :=
    ∃ l args body decorator_list returns type_params,
      FunctionDef l name args body decorator_list returns type_params
      ∈ walk tree in
  (∀ name, name ∈ parse_python_functions ast_parse source_code →
           plain_definition name)
  ∧ (∀ name len,
       (name, len) ∈ find_long_functions ast_parse source_code length_threshold →
       plain_definition name)
  ∧ (∀ name, name ∈ nodes (build_call_graph ast_parse source_code) →
             plain_definition name)
  ∧ (∀ l name args body decorator_list returns type_params,
       function_name (AsyncFunctionDef l name args body decorator_list
                        returns type_params) = None)
  ∧ (∀ l args body, function_name (Lambda l args body) = None)
  ∧ (Forall (λ n, function_name n = None) (walk tree) →
     parse_python_functions ast_parse source_code = []
     ∧ find_long_functions ast_parse source_code length_threshold = []
     ∧ nodes (build_call_graph ast_parse source_code) = ∅).
Proof.
  intros Hp plain_definition.
  assert (Hplain : ∀ n name, n ∈ walk tree → function_name n = Some name →
                             plain_definition name).
  { intros n name Hn Hname. destruct n; try done.
    injection Hname as ->. unfold plain_definition. eauto 10. }
  assert (Hcatalog : ∀ name,
            name ∈ parse_python_functions ast_parse source_code →
            plain_definition name).
  { intros name. rewrite (parse_python_functions_parsed _ _ _ Hp).
    intros (n & Hn & Hname)%list_elem_of_omap. eauto. }
  assert (Hreport : ∀ name len,
            (name, len)
            ∈ find_long_functions ast_parse source_code length_threshold →
            plain_definition name).
  { intros name len Hin%(find_long_functions_entries _ _ _ Hp).
    apply list_elem_of_omap in Hin as (n & Hn & Hentry).
    apply long_entry_Some in Hentry as [Hname _]. eauto. }
  assert (Hnodes : ∀ name,
            name ∈ nodes (build_call_graph ast_parse source_code) →
            plain_definition name).
  { intros name. rewrite (build_call_graph_parsed _ _ _ Hp).
    rewrite nodes_graph_of, dom_funcs_of, elem_of_list_to_set.
    intros (n & Hn & Hname)%list_elem_of_omap. eauto. }
  repeat split; try done.
  - apply elem_of_nil_inv. intros name Hin.
    apply Hcatalog in Hin as (l & a & b & d & r & t & Hin).
    rewrite Forall_forall in H. by apply H in Hin.
  - apply elem_of_nil_inv. intros [name len] Hin.
    apply Hreport in Hin as (l & a & b & d & r & t & Hin).
    rewrite Forall_forall in H. by apply H in Hin.
  - apply set_eq. intros name. split; [|set_solver]. intros Hin.
    apply Hnodes in Hin as (l & a & b & d & r & t & Hin).
    rewrite Forall_forall in H. by apply H in Hin.
Qed.

Lemma only_plain_definitions_count_witness :
  parse_python_functions sample_parse src_async_lambda = []
  ∧ find_long_functions sample_parse src_async_lambda 0 = []
  ∧ nodes (build_call_graph sample_parse src_async_lambda) = ∅.
Proof.
  apply (only_plain_definitions_count sample_parse src_async_lambda
           tree_async_lambda 0).
  - reflexivity.
  - assert (Hw : walk tree_async_lambda
      = [tree_async_lambda;
         AsyncFunctionDef 1 "a" no_arguments [Pass 1] [] None [];
         Assign 2 [Name 2 "f" Store]
           (Lambda 2 no_arguments (Constant 2 (CInt 0)));
         no_arguments; Pass 1; Name 2 "f" Store;
         Lambda 2 no_arguments (Constant 2 (CInt 0));
         Context Store; no_arguments; Constant 2 (CInt 0)])
      by (vm_compute; reflexivity).
    rewrite Hw. repeat constructor.
Defined.

(** C10, as stated, fails: in
    [def f(): / def g(): / h()], [def h(): pass], [def f(): pass]
    the call [h()] lies inside [g], nested within the first [f], and [h] is
    in the catalogue, yet there is no edge from [f] to [h]: the second [f]
    replaced the first one in [funcs]. *)
Lemma nested_call_lost_by_redefinition :
  ¬ (∀ f g h fd gd,
       fd ∈ walk tree_nested_call_redefined → function_name fd = Some f →
       function_name gd = Some g → descendant fd gd →
       (∃ n, n ∈ walk gd ∧ callee n = Some h) →
       h ∈ parse_python_functions sample_parse src_nested_call_redefined →
       (f, h) ∈ edges (build_call_graph sample_parse src_nested_call_redefined)
       ∧ (g, h)
         ∈ edges (build_call_graph sample_parse src_nested_call_redefined)).
Proof.
  intros Hclaim.
  pose (call := Call 3 (Name 3 "h" Load) [] []).
  pose (gd := def 2 "g" [Expr 3 call]).
  pose (fd := def 1 "f" [gd]).
  destruct (Hclaim "f" "g" "h" fd gd) as [Hedge _].
  - apply elem_of_walk. right. apply descendant_child. elem_of_concrete.
  - reflexivity.
  - reflexivity.
  - apply descendant_child. elem_of_concrete.
  - exists call. split; [|done]. apply elem_of_walk. right.
    apply descendant_step with (Expr 3 call); [elem_of_concrete|].
    apply descendant_child. elem_of_concrete.
  - assert (Hnames :
      parse_python_functions sample_parse src_nested_call_redefined
      = ["f"; "h"; "f"; "g"]) by reflexivity.
    rewrite Hnames. elem_of_concrete.
  - revert Hedge. by vm_compute.
Qed.

(** C10, amended.  On a parsed source, let [fd] and [gd] be the nodes the
    dictionary [funcs] holds for the names [f] and [g] (the last definition
    of each name that [ast.walk] yields), with [gd] nested within [fd].  A
    call of a bare name [h] of the catalogue inside [gd] gives the edges
    [(f, h)] and [(g, h)]: the whole subtree of a kept definition, nested
    definitions included, is scanned. *)
Theorem nested_call_edges_of_kept_definitions
    (ast_parse : string → result node) (source_code : string) (tree : node)
    (f g h : string) (fd gd : node) :
  ast_parse source_code = Ok tree →
  funcs_of tree !! f = Some fd →
  funcs_of tree !! g = Some gd →
  descendant fd gd →
  (∃ n, n ∈ walk gd ∧ callee n = Some h) →
  h ∈ parse_python_functions ast_parse source_code →
  (f, h) ∈ edges (build_call_graph ast_parse source_code)
  ∧ (g, h) ∈ edges (build_call_graph ast_parse source_code).
Proof.
  intros Hp Hf Hg Hnest (n & Hn & Hcall) Hh.
  rewrite (build_call_graph_parsed _ _ _ Hp).
  rewrite (parse_python_functions_parsed _ _ _ Hp) in Hh.
  assert (h ∈ dom (funcs_of tree))
    by (by rewrite dom_funcs_of, elem_of_list_to_set).
  split; apply edges_graph_of.
  - exists fd. repeat split; try done. exists n. split; [|done].
    apply walk_nested with gd; [|done]. apply elem_of_walk. by right.
  - exists gd. repeat split; try done. eauto.
Qed.

Lemma nested_call_edges_of_kept_definitions_witness :
  ("f", "h") ∈ edges (build_call_graph sample_parse src_nested_call)
  ∧ ("g", "h") ∈ edges (build_call_graph sample_parse src_nested_call).
Proof.
  pose (call := Call 3 (Name 3 "h" Load) [] []).
  pose (gd := def 2 "g" [Expr 3 call]).
  pose (fd := def 1 "f" [gd]).
  apply (nested_call_edges_of_kept_definitions sample_parse src_nested_call
           tree_nested_call "f" "g" "h" fd gd).
  - reflexivity.
  - by vm_compute.
  - by vm_compute.
  - apply descendant_child. elem_of_concrete.
  - exists call. split; [|reflexivity]. apply elem_of_walk. right.
    apply descendant_step with (Expr 3 call); [elem_of_concrete|].
    apply descendant_child. elem_of_concrete.
  - assert (Hnames : parse_python_functions sample_parse src_nested_call
                     = ["f"; "h"; "g"]) by reflexivity.
    rewrite Hnames. elem_of_concrete.
Defined.

(** * Further properties of the analyses *)

Section Further.

Variable ast_parse : string → result node.

Lemma nodes_build_call_graph (source_code : string) :
  nodes (build_call_graph ast_parse source_code)
  = list_to_set (parse_python_functions ast_parse source_code).
Proof.
  unfold build_call_graph, parse_python_functions.
  destruct (ast_parse source_code) as [tree|e]; cbn; [|done].
  by rewrite nodes_graph_of, dom_funcs_of.
Qed.

Lemma edges_build_call_graph_parsed (source_code : string) (a b : string) :
  (a, b) ∈ edges (build_call_graph ast_parse source_code) →
  ∃ tree, ast_parse source_code = Ok tree ∧ (a, b) ∈ edges (graph_of tree).
Proof.
  unfold build_call_graph.
  destruct (ast_parse source_code) as [tree|e]; cbn; [eauto|].
  by intros ?%elem_of_empty.
Qed.

Lemma callee_Some (n : node) (b : string) :
  callee n = Some b →
  ∃ l l' ctx args keywords, n = Call l (Name l' b ctx) args keywords.
Proof. destruct n; try done. destruct n; try done. intros [= ->]. eauto 10. Qed.

Lemma elem_of_find_variable_usage (source_code var_name : string)
    (tree : node) (line : Z) (ctx : expr_context) :
  ast_parse source_code = Ok tree →
  Name line var_name ctx ∈ walk tree →
  line ∈ find_variable_usage ast_parse source_code var_name.
Proof.
  intros Hp Hn. rewrite (find_variable_usage_parsed _ _ _ Hp).
  rewrite elem_of_sorted_set, list_elem_of_omap.
  eexists. split; [exact Hn|]. simpl. by rewrite decide_True.
Qed.

Lemma length_remove_dups_le {A} `{EqDecision A} (l : list A) :
  (length (remove_dups l) ≤ length l)%nat.
Proof.
  induction l as [|x l IH]; simpl; [done|]. case_decide; simpl; lia.
Qed.

Lemma size_list_to_set_remove_dups (l : list string) :
  size (list_to_set (C:=gset string) l) = length (remove_dups l).
Proof.
  rewrite <- (size_list_to_set (C:=gset string) (remove_dups l))
    by apply NoDup_remove_dups.
  f_equal. apply set_eq. intros x.
  by rewrite !elem_of_list_to_set, elem_of_remove_dups.
Qed.

(** The loop of [find_long_functions] computes the spans first and compares
    them with the threshold afterwards. *)
Lemma long_step_body_span (length_threshold : Z)
    (long_funcs : list (string * Z)) (n : node) :
  long_step length_threshold long_funcs n
  = (s ← body_span n;
     mret (long_funcs ++ filter (λ e, e.2 > length_threshold) (opt_list s))).
Proof.
  destruct n; cbn; try by rewrite app_nil_r.
  destruct (head body) as [first|], (last body) as [final|]; cbn;
    try by rewrite app_nil_r.
  destruct (get_lineno final) as [l_final|]; cbn; [|done].
  destruct (get_lineno first) as [l_first|]; cbn; [|done].
  case_decide; [done|by rewrite app_nil_r].
Qed.

Lemma for_each_long_step_spans (length_threshold : Z) (l : list node)
    (long_funcs : list (string * Z)) :
  for_each l long_funcs (long_step length_threshold)
  = (r ← body_spans l;
     mret (long_funcs ++ filter (λ e, e.2 > length_threshold) r)).
Proof.
  revert long_funcs. induction l as [|n l IH]; intros long_funcs; cbn.
  { by rewrite app_nil_r. }
  rewrite long_step_body_span.
  destruct (body_span n) as [s|e]; cbn; [|done].
  rewrite IH. destruct (body_spans l) as [r|e]; cbn; [|done].
  by rewrite filter_app, app_assoc.
Qed.

Lemma find_long_functions_spans (source_code : string) (length_threshold : Z) :
  find_long_functions ast_parse source_code length_threshold
  = try_except
      (tree ← ast_parse source_code;
       r ← body_spans (walk tree);
       mret (filter (λ e, e.2 > length_threshold) r))
      (λ e, []).
Proof.
  unfold find_long_functions.
  destruct (ast_parse source_code) as [tree|e]; cbn; [|done].
  rewrite for_each_long_step_spans.
  by destruct (body_spans (walk tree)).
Qed.

Lemma body_span_Some (n : node) (name : string) (len : Z) :
  body_span n = Ok (Some (name, len)) → function_name n = Some name.
Proof.
  destruct n; cbn; try done.
  destruct (head body), (last body); cbn; try done.
  destruct (get_lineno n1); cbn; [|done].
  destruct (get_lineno n0); cbn; [|done]. by intros [= -> _].
Qed.

Lemma body_spans_names (l : list node) (r : list (string * Z)) :
  body_spans l = Ok r → r.*1 `sublist_of` omap function_name l.
Proof.
  revert r. induction l as [|n l IH]; intros r; cbn.
  { by intros [= <-]. }
  destruct (body_span n) as [s|e] eqn:Hs; cbn; [|done].
  destruct (body_spans l) as [r'|e]; cbn; [|done]. intros [= <-].
  specialize (IH r' eq_refl). destruct s as [[name len]|]; cbn.
  - apply body_span_Some in Hs. rewrite Hs. by apply sublist_skip.
  - destruct (function_name n); [by apply sublist_cons|done].
Qed.

End Further.

Lemma funcs_of_lookup_NoDup (tree : node) (a : string) (fa : node) :
  NoDup (omap function_name (walk tree)) →
  fa ∈ walk tree → function_name fa = Some a →
  funcs_of tree !! a = Some fa.
Proof.
  intros Hnd Hin Hname.
  apply list_elem_of_split in Hin as (before & after & Hw).
  apply funcs_of_lookup. exists before, after. repeat split; try done.
  rewrite Hw, omap_app in Hnd. cbn in Hnd. rewrite Hname in Hnd.
  apply NoDup_app in Hnd as (_ & _ & [Hnotin _]%NoDup_cons).
  apply Forall_forall. intros x Hx Hxa. apply Hnotin.
  apply list_elem_of_omap. eauto.
Qed.

Lemma body_spans_single_statement (l : list node) (r : list (string * Z)) :
  forallb (λ n, match n with
                | FunctionDef _ _ _ body _ _ _ =>
                    bool_decide (length body ≤ 1)%nat
                | _ => true
                end) l = true →
  body_spans l = Ok r → Forall (λ e, e.2 = 1) r.
Proof.
  revert r. induction l as [|n l IH]; intros r Hl; cbn.
  { intros [= <-]. constructor. }
  cbn in Hl. apply andb_true_iff in Hl as [Hn Hl].
  destruct (body_span n) as [s|e] eqn:Hs; cbn; [|done].
  destruct (body_spans l) as [r'|e]; cbn; [|done]. intros [= <-].
  apply Forall_app. split; [|by apply IH].
  destruct n; cbn in Hs; try (injection Hs as <-; constructor).
  apply bool_decide_eq_true in Hn.
  destruct body as [|first [|second body]]; cbn in Hs, Hn; [| |lia].
  - injection Hs as <-. constructor.
  - destruct (get_lineno first) as [l_first|]; cbn in Hs; [|done].
    injection Hs as <-. repeat constructor. cbn. lia.
Qed.

(** X1.  For every source, parsed or not, the nodes of the call graph are
    exactly the names of the catalogue: every catalogued function is a node,
    also one that calls nothing and is called by nothing. *)
Theorem call_graph_nodes_are_catalog_names
    (ast_parse : string → result node) (source_code name : string) :
  name ∈ nodes (build_call_graph ast_parse source_code)
  ↔ name ∈ parse_python_functions ast_parse source_code.
Proof. by rewrite nodes_build_call_graph, elem_of_list_to_set. Qed.

(** X2.  Both ends of every edge of the call graph are names of the
    catalogue [parse_python_functions] returns for the same source, and
    nodes of the graph: a call of a name that is not a defined function
    ([print], an import) adds neither an edge nor a node. *)
Theorem call_graph_edges_join_nodes
    (ast_parse : string → result node) (source_code a b : string) :
  (a, b) ∈ edges (build_call_graph ast_parse source_code) →
  a ∈ parse_python_functions ast_parse source_code
  ∧ b ∈ parse_python_functions ast_parse source_code
  ∧ a ∈ nodes (build_call_graph ast_parse source_code)
  ∧ b ∈ nodes (build_call_graph ast_parse source_code).
Proof.
  intros (tree & Hp & Hedge)%edges_build_call_graph_parsed.
  rewrite nodes_build_call_graph, !elem_of_list_to_set.
  rewrite (parse_python_functions_parsed _ _ _ Hp).
  apply edges_graph_of in Hedge as (fa & Hfa & Hb & _).
  assert (Ha : a ∈ dom (funcs_of tree)) by (apply elem_of_dom; eauto).
  rewrite dom_funcs_of, elem_of_list_to_set in Ha, Hb. done.
Qed.

Lemma call_graph_edges_join_nodes_witness :
  "g" ∈ parse_python_functions sample_parse src_scenario_A
  ∧ "f" ∈ parse_python_functions sample_parse src_scenario_A
  ∧ "g" ∈ nodes (build_call_graph sample_parse src_scenario_A)
  ∧ "f" ∈ nodes (build_call_graph sample_parse src_scenario_A).
Proof.
  apply (call_graph_edges_join_nodes sample_parse src_scenario_A "g" "f").
  by vm_compute.
Defined.

(** X3.  Tab 4 plots the call graph exactly when tab 1 lists functions: the
    test [graph.number_of_nodes() > 0] holds if and only if the catalogue is
    not empty, whether or not any function calls another. *)
Theorem call_graph_plotted_iff_functions_listed
    (ast_parse : string → result node) (code : string) :
  tab4_plots_graph ast_parse code = tab1_lists_functions ast_parse code.
Proof.
  unfold tab4_plots_graph, tab1_lists_functions, number_of_nodes.
  rewrite nodes_build_call_graph, size_list_to_set_remove_dups.
  destruct (parse_python_functions ast_parse code) as [|x l]; [done|].
  apply bool_decide_eq_true. cbn. case_decide; cbn; [|lia].
  destruct (remove_dups l) as [|y k] eqn:Hk; cbn; [|lia].
  assert (x ∈ remove_dups l) as Hx by (by apply elem_of_remove_dups).
  rewrite Hk in Hx. by apply elem_of_nil in Hx.
Qed.

(** X4.  The number of nodes of the call graph is the number of distinct
    names of the catalogue, so it is at most the number of catalogue entries
    and smaller when a name is defined more than once. *)
Theorem number_of_nodes_counts_distinct_names
    (ast_parse : string → result node) (source_code : string) :
  number_of_nodes (build_call_graph ast_parse source_code)
  = length (remove_dups (parse_python_functions ast_parse source_code))
  ∧ (number_of_nodes (build_call_graph ast_parse source_code)
     ≤ length (parse_python_functions ast_parse source_code))%nat
  ∧ (¬ NoDup (parse_python_functions ast_parse source_code) →
     (number_of_nodes (build_call_graph ast_parse source_code)
      < length (parse_python_functions ast_parse source_code))%nat).
Proof.
  unfold number_of_nodes.
  rewrite nodes_build_call_graph, size_list_to_set_remove_dups.
  split; [done|]. split; [apply length_remove_dups_le|].
  generalize (parse_python_functions ast_parse source_code). intros l Hdup.
  induction l as [|x l IH]; [by destruct Hdup; constructor|].
  cbn. pose proof (length_remove_dups_le l). case_decide as Hx; [lia|].
  assert (length (remove_dups l) < length l)%nat; [|cbn; lia].
  apply IH. intros Hl. apply Hdup. by constructor.
Qed.

Lemma number_of_nodes_counts_distinct_names_witness :
  (number_of_nodes (build_call_graph sample_parse src_redefined)
   < length (parse_python_functions sample_parse src_redefined))%nat.
Proof.
  apply (number_of_nodes_counts_distinct_names sample_parse src_redefined).
  assert (Hnames : parse_python_functions sample_parse src_redefined
                   = ["h"; "h"; "k"]) by reflexivity.
  rewrite Hnames. intros [Hh _]%NoDup_cons. apply Hh. elem_of_concrete.
Defined.

(** X5.  Raising the threshold only filters the report: for
    [t1 <= t2] the report at [t2] is the report at [t1] with the entries of
    length at most [t2] removed, in the same order.  Whether the loop raises
    does not depend on the threshold. *)
Theorem long_functions_threshold_filter
    (ast_parse : string → result node) (source_code : string) (t1 t2 : Z) :
  t1 ≤ t2 →
  find_long_functions ast_parse source_code t2
  = filter (λ e, e.2 > t2) (find_long_functions ast_parse source_code t1).
Proof.
  intros Ht. rewrite !find_long_functions_spans.
  destruct (ast_parse source_code) as [tree|e]; cbn; [|done].
  destruct (body_spans (walk tree)) as [r|e]; cbn; [|done].
  rewrite list_filter_filter. apply list_filter_iff.
  intros [name len]. cbn. lia.
Qed.

Lemma long_functions_threshold_filter_witness :
  find_long_functions sample_parse src_lines_5_14 9
  = filter (λ e, e.2 > 9) (find_long_functions sample_parse src_lines_5_14 5).
Proof.
  apply (long_functions_threshold_filter sample_parse src_lines_5_14 5 9).
  lia.
Defined.

(** X6.  The names of the long-function report follow the catalogue: they
    are a subsequence of the list [parse_python_functions] returns for the
    same source, in the same order. *)
Theorem long_function_names_follow_catalog
    (ast_parse : string → result node) (source_code : string)
    (length_threshold : Z) :
  (find_long_functions ast_parse source_code length_threshold).*1
  `sublist_of` parse_python_functions ast_parse source_code.
Proof.
  rewrite find_long_functions_spans. unfold parse_python_functions.
  destruct (ast_parse source_code) as [tree|e]; cbn; [|done].
  destruct (body_spans (walk tree)) as [r|e] eqn:Hr; cbn.
  - transitivity (r.*1); [|by apply body_spans_names].
    apply fmap_sublist, sublist_filter.
  - apply sublist_nil_l.
Qed.

(** X7.  A function whose body is a single statement has length 1 however
    many lines that statement covers: on a parsed source in which no
    definition has more than one body statement, nothing is reported at any
    threshold of 1 or more. *)
Theorem single_statement_bodies_never_reported
    (ast_parse : string → result node) (source_code : string) (tree : node)
    (length_threshold : Z) :
  ast_parse source_code = Ok tree →
  single_statement_bodies tree = true →
  1 ≤ length_threshold →
  find_long_functions ast_parse source_code length_threshold = [].
Proof.
  intros Hp Hsingle Ht. rewrite find_long_functions_spans, Hp. cbn.
  destruct (body_spans (walk tree)) as [r|e] eqn:Hr; cbn; [|done].
  pose proof (body_spans_single_statement _ _ Hsingle Hr) as Hone.
  clear Hr. induction Hone as [|[name len] r Hlen _ IH]; [done|].
  rewrite filter_cons. cbn in *. by rewrite decide_False by lia.
Qed.

Lemma single_statement_bodies_never_reported_witness :
  find_long_functions sample_parse src_scenario_A 1 = [].
Proof.
  apply (single_statement_bodies_never_reported sample_parse src_scenario_A
           tree_scenario_A 1); [reflexivity|reflexivity|lia].
Defined.

(** X8.  Every callee of the call graph is found by the usage slicing: when
    the graph has an edge [a → b], [find_variable_usage] on the same source
    reports at least one line for [b], the line of the bare name called. *)
Theorem call_graph_callee_has_usage_line
    (ast_parse : string → result node) (source_code a b : string) :
  (a, b) ∈ edges (build_call_graph ast_parse source_code) →
  ∃ line, line ∈ find_variable_usage ast_parse source_code b.
Proof.
  intros (tree & Hp & Hedge)%edges_build_call_graph_parsed.
  apply edges_graph_of in Hedge as (fa & Hfa & _ & n & Hn & Hcall).
  apply funcs_of_lookup_walk in Hfa as [Hfa _].
  apply callee_Some in Hcall as (l & l' & ctx & args & keywords & ->).
  exists l'. apply (elem_of_find_variable_usage _ _ _ tree _ ctx Hp).
  apply walk_nested with fa; [done|].
  apply walk_nested with (Call l (Name l' b ctx) args keywords); [done|].
  apply elem_of_walk. right. apply descendant_child. cbn. left.
Qed.

Lemma call_graph_callee_has_usage_line_witness :
  ∃ line, line ∈ find_variable_usage sample_parse src_scenario_A "f".
Proof.
  apply (call_graph_callee_has_usage_line sample_parse src_scenario_A "g" "f").
  by vm_compute.
Defined.

(** X9.  On every source, whether or not its statements carry line numbers,
    each entry of the report has a length strictly greater than the
    threshold; with the slider of tab 3, which starts at 5, a reported
    function has length 6 at least. *)
Theorem long_function_lengths_exceed_threshold
    (ast_parse : string → result node) (source_code name : string)
    (length_threshold len : Z) :
  (name, len) ∈ find_long_functions ast_parse source_code length_threshold →
  len > length_threshold.
Proof.
  rewrite find_long_functions_spans.
  destruct (ast_parse source_code) as [tree|e]; cbn;
    [|by intros ?%elem_of_nil].
  destruct (body_spans (walk tree)) as [r|e]; cbn;
    [|by intros ?%elem_of_nil].
  by intros [Hlen _]%list_elem_of_filter.
Qed.

Lemma long_function_lengths_exceed_threshold_witness :
  ("f", 9) ∈ find_long_functions sample_parse src_lines_5_14 5 ∧ 9 > 5.
Proof.
  assert (Hin : ("f", 9) ∈ find_long_functions sample_parse src_lines_5_14 5).
  { assert (Hreport : find_long_functions sample_parse src_lines_5_14 5
                      = [("f", 9)]) by reflexivity.
    rewrite Hreport. elem_of_concrete. }
  split; [exact Hin|].
  exact (long_function_lengths_exceed_threshold sample_parse src_lines_5_14
           "f" 5 9 Hin).
Defined.

(** X10.  [ast.walk] lists a tree level by level, so for a parsed module
    the catalogue starts with the names of the [FunctionDef] statements of
    the top level, all of them and in source order, and every name after
    them is the name of a [FunctionDef] node nested inside a top-level
    statement.  ([async def] statements are not definitions here and give
    no name.) *)
Theorem catalog_top_level_first
    (ast_parse : string → result node) (source_code : string)
    (body type_ignores : list node) :
  ast_parse source_code = Ok (Module body type_ignores) →
  let top := body ++ type_ignores in
  ∃ nested,
    parse_python_functions ast_parse source_code
      = (top ≫= definition_name_here) ++ nested
    ∧ ∀ name, name ∈ nested →
        ∃ s l args b decorator_list returns type_params,
          s ∈ top
          ∧ descendant s
              (FunctionDef l name args b decorator_list returns type_params).
Proof.
  intros Hp top.
  exists (omap function_name (walk_queue (top ≫= iter_child_nodes))). split.
  - rewrite (parse_python_functions_parsed _ _ _ Hp).
    unfold walk. rewrite walk_queue_cons. cbn.
    pose proof (walk_queue_level top []) as Hlevel.
    rewrite app_nil_r in Hlevel. cbn in Hlevel.
    fold top. rewrite Hlevel, omap_app. f_equal.
    clear. induction top as [|n top IH]; [done|].
    by rewrite omap_function_name_cons, IH.
  - intros name (x & Hx & Hname)%list_elem_of_omap.
    apply elem_of_walk_queue in Hx as (c & Hc & Hx).
    apply list_elem_of_bind in Hc as (s & Hc & Hs).
    destruct x; try done. injection Hname as ->.
    exists s. do 6 eexists. split; [done|]. destruct Hx as [<-|Hx].
    + by apply descendant_child.
    + by apply descendant_step with c.
Qed.

Lemma catalog_top_level_first_witness :
  ∃ nested,
    parse_python_functions sample_parse src_nested_sibling
      = ([def 1 "a" [def 2 "b" [Pass 2]]; def 3 "c" [Pass 3]]
         ≫= definition_name_here) ++ nested
    ∧ ∀ name, name ∈ nested →
        ∃ s l args b decorator_list returns type_params,
          s ∈ [def 1 "a" [def 2 "b" [Pass 2]]; def 3 "c" [Pass 3]]
          ∧ descendant s
              (FunctionDef l name args b decorator_list returns type_params).
Proof.
  apply (catalog_top_level_first sample_parse src_nested_sibling
           [def 1 "a" [def 2 "b" [Pass 2]]; def 3 "c" [Pass 3]] []).
  reflexivity.
Defined.

(** X11.  When no name is defined twice in the source, the graph has the
    edge [a → b] exactly when the subtree of the definition of [a] contains
    a call whose callee is the bare name [b] and [b] is in the catalogue. *)
Theorem call_graph_edges_without_redefinition
    (ast_parse : string → result node) (source_code : string) (tree : node)
    (a b : string) :
  ast_parse source_code = Ok tree →
  NoDup (parse_python_functions ast_parse source_code) →
  (a, b) ∈ edges (build_call_graph ast_parse source_code) ↔
  ∃ fa, fa ∈ walk tree ∧ function_name fa = Some a
        ∧ b ∈ parse_python_functions ast_parse source_code
        ∧ ∃ n, n ∈ walk fa ∧ callee n = Some b.
Proof.
  intros Hp. rewrite (parse_python_functions_parsed _ _ _ Hp).
  rewrite (build_call_graph_parsed _ _ _ Hp). intros Hnd.
  rewrite edges_graph_of, dom_funcs_of. split.
  - intros (fa & Hfa & Hb & Hn). exists fa.
    apply funcs_of_lookup_walk in Hfa as [Hin Hname].
    by rewrite elem_of_list_to_set in Hb.
  - intros (fa & Hin & Hname & Hb & Hn). exists fa.
    rewrite elem_of_list_to_set. repeat split; try done.
    by apply funcs_of_lookup_NoDup.
Qed.

Lemma call_graph_edges_without_redefinition_witness :
  ("g", "f") ∈ edges (build_call_graph sample_parse src_scenario_A) ↔
  ∃ fa, fa ∈ walk tree_scenario_A ∧ function_name fa = Some "g"
        ∧ "f" ∈ parse_python_functions sample_parse src_scenario_A
        ∧ ∃ n, n ∈ walk fa ∧ callee n = Some "f".
Proof.
  apply (call_graph_edges_without_redefinition sample_parse src_scenario_A
           tree_scenario_A "g" "f"); [reflexivity|].
  assert (Hnames : parse_python_functions sample_parse src_scenario_A
                   = ["f"; "g"]) by reflexivity.
  rewrite Hnames. apply NoDup_cons. split.
  - intros [Heq|Hnil]%elem_of_cons; [discriminate Heq|].
    by apply elem_of_nil in Hnil.
  - apply NoDup_singleton.
Defined.
